(** * ll2go: recovery of Go function declarations from LLVM IR

    A shallow embedding of [cmd/ll2go/main.go].  The decompiler keeps a map
    from basic block labels to conceptual basic blocks; [funcDecl] seeds it
    from the blocks of a function, propagates the incoming values of PHI
    instructions to the predecessor blocks, merges blocks primitive by
    primitive, and turns the single block that remains into the body of the
    Go function.

    Go maps are modelled by [gmap]; a Go [panic] and a returned [error] are
    kept apart ([Abort] and [Fail]); the state of the decompiler is threaded
    explicitly. *)

From Stdlib Require Import DecimalString DecimalZ.
From stdpp Require Import base option list gmap strings pretty fin_maps.

Local Open Scope string_scope.
Local Open Scope list_scope.
Set Warnings "-register-all,-clear-no-such-hyp".
Set Default Proof Using "Type".

(** ** go/token and go/ast (the fragment the decompiler builds) *)

Inductive token := ASSIGN | DEFINE | INT | FLOAT | STRING.

(** [ast.NewIdent name]. *)
Record Ident := NewIdent { IdentName : string }.

Inductive Expr :=
| EIdent (id : Ident)
| BasicLit (Kind : token) (Value : string)
| CallExpr (Fun : Expr) (Args : list Expr)
| StarExpr (X : Expr)
| ArrayType (Len : Expr) (Elt : Expr)
| StructType (Fields : list Expr)
| EFuncType (Params Results : list Expr).

Record FuncType := { Params : list Expr; Results : list Expr }.

Inductive Stmt :=
| AssignStmt (Lhs : list Expr) (Tok : token) (Rhs : list Expr)
| ExprStmt (X : Expr)
| ReturnStmt (Results : list Expr)
| IfStmt (Cond : Expr) (Body : list Stmt) (Else : option (list Stmt))
| ForStmt (Cond : option Expr) (Body : list Stmt)
| BlockStmt (List : list Stmt).

(** [ast.FuncDecl]; [fd_Body = None] is a declaration without body. *)
Record FuncDecl := {
  fd_Name : Ident;
  fd_Type : FuncType;
  fd_Body : option (list Stmt)
}.

(** ** llir/llvm (the fragment the decompiler inspects) *)

Inductive irType :=
| IntType (bits : N)
| FloatType (kind : string)
| PointerType (elem : irType)
| ArrayT (len : N) (elem : irType)
| StructT (fields : list irType)
| FuncT (ret : irType) (params : list irType)
| VoidType
| LabelType
| MetadataType.

(** [constant.Constant] other than globals and functions, which are named
    values as well and are caught by the first case of [value]. *)
Inductive Constant :=
| CInt (bits : N) (X : Z)
| CFloat (kind : string) (X : string)
| CNull (elem : irType)
| CStruct (Fields : list Constant)
| CArray (Elems : list Constant)
| CZeroInitializer
| CUndef.

(** [value.Value].  [VLocal] stands for every [value.Named] that is neither
    [*ir.Global] nor [*ir.Function] (parameters, instruction results, basic
    blocks); [VOther] for a value that is neither named nor constant, with
    the name of its Go type. *)
Inductive Value :=
| VGlobal (name : string)
| VFunction (name : string)
| VLocal (name : string)
| VConst (c : Constant)
| VOther (T : string).

(** [ir.Incoming]: [inc_Pred] is [inc.Pred.Name]. *)
Record Incoming := { inc_X : Value; inc_Pred : string }.

Inductive Instruction :=
| InstPhi (Name : string) (Incs : list Incoming)
| InstOp (Name : string) (Op : string) (Operands : list Value).

Inductive Terminator :=
| TermRet (X : option Value)
| TermBr (Target : string)
| TermCondBr (Cond : Value) (TargetTrue TargetFalse : string)
| TermUnreachable.

(** [ir.BasicBlock].  The terminator is a Go interface value, [None] is nil. *)
Record BasicBlock := {
  bb_Name : string;
  bb_Insts : list Instruction;
  bb_Term : option Terminator
}.

(** [ir.Function], after [f.String()] has assigned the local IDs. *)
Record Function := {
  fn_Name : string;
  fn_Sig : irType;
  fn_Blocks : list BasicBlock
}.

(** ** Results of Go calls *)

(** The error classes of the decompiler. *)
Inductive errKind :=
| MalformedInput
| UnresolvedReference
| ReductionIncomplete
| UnsupportedConstruct
| InputUnavailable.

(** A Go [error] value: its class and its message. *)
Record error := Err { err_kind : errKind; err_msg : string }.

(** What a Go call does: it returns a value, returns an error, or panics. *)
Inductive outcome (A : Type) :=
| Ret (a : A)
| Fail (e : error)
| Abort (msg : string).
Arguments Ret {A} a.
Arguments Fail {A} e.
Arguments Abort {A} msg.

Definition obind {A B} (m : outcome A) (k : A → outcome B) : outcome B :=
  match m with
  | Ret a => k a
  | Fail e => Fail e
  | Abort s => Abort s
  end.

(** ** Identifiers and values *)

Module Decompiler.

(** [fmt.Sprintf "%T"] of a constant. *)
Definition typeName (c : Constant) : string :=
  match c with
  | CInt _ _ => "*constant.Int"
  | CFloat _ _ => "*constant.Float"
  | CNull _ => "*constant.Null"
  | CStruct _ => "*constant.Struct"
  | CArray _ => "*constant.Array"
  | CZeroInitializer => "*constant.ZeroInitializer"
  | CUndef => "*constant.Undef"
  end.

(** global converts the given LLVM IR global identifier to a corresponding Go
    identifier. *)
Definition global (name : string) : Ident := NewIdent name.

(** local converts the given LLVM IR local identifier to a corresponding Go
    identifier. *)
Definition local (name : string) : Ident :=
  let name := "_" +:+ name in
  NewIdent name.

(** value converts the given LLVM IR value to a corresponding Go expression. *)
Definition value (v : Value) : outcome Expr :=
  match v with
  | VGlobal name | VFunction name => Ret (EIdent (global name))
  | VLocal name => Ret (EIdent (local name))
  | VConst c =>
      match c with
      | CInt _ X => Ret (BasicLit INT (pretty X))
      | _ => Abort ("support for constant value " +:+ typeName c +:+ " not yet implemented")
      end
  | VOther T => Abort ("support for value " +:+ T +:+ " not yet implemented")
  end.

(** The keywords of Go. *)
Definition go_keywords : list string :=
  [ "break"; "default"; "func"; "interface"; "select";
    "case"; "defer"; "go"; "map"; "struct";
    "chan"; "else"; "goto"; "package"; "switch";
    "const"; "fallthrough"; "if"; "range"; "type";
    "continue"; "for"; "import"; "return"; "var" ].


(** ** The decompiler and its conceptual basic blocks *)

(** basicBlock represents a conceptual basic block, that may contain both LLVM
    IR instructions and Go statements.  [blk_stmts] are the Go statements,
    [blk_out] the outgoing values for PHI instructions: a list of assignment
    statements to appear at the end of the basic block. *)
Record basicBlock := {
  blk_BasicBlock : BasicBlock;
  blk_stmts : list Stmt;
  blk_out : list Stmt
}.

(** A decompiler keeps track of relevant information during the decompilation
    process: the map from basic block label to conceptual basic block. *)
Record decompiler := { blocks : gmap string basicBlock }.

Definition newDecompiler : decompiler := {| blocks := ∅ |}.

(** Modelled from the spec: the record [primitive.Primitive] of package
    [cfa/primitive], which is not part of the sources at hand.  A primitive
    has a kind, the label of the block it is merged into, and its member
    block labels, each under the role it plays in the primitive.  [Nodes] is
    a Go map, whose storage order is the business of the run time system:
    the list gives its entries in the order in which the primitive declares
    them. *)
Record Primitive := {
  Prim : string;
  Node : string;
  Nodes : list (string * string)
}.

(** What is known of the order of [range] over a Go map. *)
Definition range_order (range : list (string * string) → list (string * string)) : Prop :=
  ∀ entries, range entries ≡ₚ entries.

(** A computation of the decompiler: it reads and updates the decompiler and
    returns, fails or panics. *)
Definition M (A : Type) : Type := decompiler → outcome A * decompiler.

Definition ret {A} (a : A) : M A := λ d, (Ret a, d).

Definition bind {A B} (m : M A) (k : A → M B) : M B := λ d,
  match m d with
  | (Ret a, d') => k a d'
  | (Fail e, d') => (Fail e, d')
  | (Abort s, d') => (Abort s, d')
  end.

Definition lift {A} (o : outcome A) : M A := λ d, (o, d).
Definition get : M decompiler := λ d, (Ret d, d).
Definition put (d' : decompiler) : M unit := λ _, (Ret tt, d').

Notation "'let*' x ':=' m 'in' k" := (bind m (λ x, k))
  (at level 10, x binder, m at level 100, k at level 200).
Notation "m ';;' k" := (bind m (λ _, k))
  (at level 100, k at level 200, right associativity).

(** [for _, x := range l { body x }]. *)
Fixpoint forEach {A} (body : A → M unit) (l : list A) : M unit :=
  match l with
  | [] => ret tt
  | x :: l => body x ;; forEach body l
  end.

Definition nil_deref : string :=
  "runtime error: invalid memory address or nil pointer dereference".

Section funcDecl.

(** The methods of the decompiler that [main.go] calls and does not define:
    the translation of types, of the instructions of a block and of a
    terminator, and the merge of the blocks of a primitive, which reads the
    block map. *)
Variable goType : irType → outcome Expr.
Variable insts : list Instruction → outcome (list Stmt).
Variable term : option Terminator → outcome Stmt.
Variable prim : decompiler → Primitive → outcome basicBlock.

(** The order in which [range] visits the entries of a Go map is not
    specified: [rangeNodes] is the order of one run, some rearrangement of
    the entries (see [range_order]). *)
Variable rangeNodes : list (string * string) → list (string * string).

(** stmts converts the basic block instructions, recorded statements and
    outgoing PHI values into a corresponding list of Go statements. *)
Definition stmts (block : basicBlock) : outcome (list Stmt) :=
  obind (insts (bb_Insts (blk_BasicBlock block))) (λ ss,
    Ret (ss ++ blk_stmts block ++ blk_out block)).

(** Reset basic block mapping. *)
Definition resetBlocks (bs : list BasicBlock) : M unit :=
  put {| blocks := ∅ |} ;;
  forEach (λ block, let* d := get in
    put {| blocks := <[bb_Name block :=
             {| blk_BasicBlock := block; blk_stmts := []; blk_out := [] |}]> (blocks d) |}) bs.

(** The incoming values of PHI instructions are propagated as assignment
    statements to the predecessor basic blocks of the incoming values. *)
Definition recordInc (phiName : string) (inc : Incoming) : M unit :=
  let* d := get in
  let pred := blocks d !! inc_Pred inc in
  let* rhs := lift (value (inc_X inc)) in
  let assignStmt := AssignStmt [EIdent (local phiName)] ASSIGN [rhs] in
  match pred with
  | None => lift (Abort nil_deref)
  | Some pred =>
      put {| blocks := <[inc_Pred inc :=
               {| blk_BasicBlock := blk_BasicBlock pred;
                  blk_stmts := blk_stmts pred;
                  blk_out := blk_out pred ++ [assignStmt] |}]> (blocks d) |}
  end.

Definition recordInst (inst : Instruction) : M unit :=
  match inst with
  | InstPhi name incs => forEach (recordInc name) incs
  | _ => ret tt
  end.

(** Record outgoing PHI values. *)
Definition recordPhis (bs : list BasicBlock) : M unit :=
  forEach (λ block, forEach recordInst (bb_Insts block)) bs.

(** Delete merged basic blocks. *)
Definition deleteNodes (p : Primitive) : M unit :=
  forEach (λ node, let* d := get in put {| blocks := delete node.2 (blocks d) |})
    (rangeNodes (Nodes p)).

(** Recover control flow primitives. *)
Definition recoverPrims (prims : list Primitive) : M unit :=
  forEach (λ p,
    let* block := (λ d, (prim d p, d)) in
    deleteNodes p ;;
    let* d := get in
    put {| blocks := <[bb_Name (blk_BasicBlock block) := block]> (blocks d) |}) prims.

Definition reductionError (n : nat) : error :=
  Err ReductionIncomplete
    ("control flow recovery failed; unable to reduce function into a single basic block; expected 1 basic block, got "
       +:+ pretty n).

(** After control flow recovery, a single basic block should remain. *)
Definition singleBlock : M (string * basicBlock) :=
  let* d := get in
  if decide (size (blocks d) ≠ 1) then lift (Fail (reductionError (size (blocks d))))
  else match map_to_list (blocks d) with
       | kb :: _ => ret kb
       | [] => lift (Abort nil_deref)
       end.

(** Recover function body: the terminator statement is appended to the
    statements of the block, which is the one the map holds. *)
Definition recoverBody (kb : string * basicBlock) : M (list Stmt) :=
  let* t := lift (term (bb_Term (blk_BasicBlock kb.2))) in
  let body := blk_stmts kb.2 ++ [t] in
  let* d := get in
  put {| blocks := <[kb.1 := {| blk_BasicBlock := blk_BasicBlock kb.2;
                                blk_stmts := body;
                                blk_out := blk_out kb.2 |}]> (blocks d) |} ;;
  ret body.

(** funcDecl converts the given LLVM IR function into a corresponding Go
    function declaration. *)
Definition funcDecl (f : Function) (prims : list Primitive) : M FuncDecl :=
  let* typ := lift (goType (fn_Sig f)) in
  match typ with
  | EFuncType ps rs =>
      let sig := {| Params := ps; Results := rs |} in
      let name := global (fn_Name f) in
      if decide (length (fn_Blocks f) < 1)
      then ret {| fd_Name := name; fd_Type := sig; fd_Body := None |}
      else
        resetBlocks (fn_Blocks f) ;;
        recordPhis (fn_Blocks f) ;;
        recoverPrims prims ;;
        let* kb := singleBlock in
        let* body := recoverBody kb in
        ret {| fd_Name := name; fd_Type := sig; fd_Body := Some body |}
  | _ => lift (Abort "interface conversion: ast.Expr is not *ast.FuncType")
  end.

(** The reading of the primitives of a function from the file system. *)
Variable parsePrims : string → string → outcome (list Primitive).

(** [printer.Fprint] of a declaration to the standard output, which returns
    an error or none. *)
Variable Fprint : FuncDecl → outcome unit.

(** The loop of ll2go over the functions of the module.  The first component
    is the list of the declarations that have been appended to the file, in
    this order, when the loop ends or stops at an error; a declaration is
    printed right after it has been appended, and the loop stops at the error
    of the printer as it does at the one of [parsePrims] or of [funcDecl]. *)
Fixpoint ll2go (srcName : string) (funcs : list Function) (d : decompiler)
  : list FuncDecl * (outcome unit * decompiler) :=
  match funcs with
  | [] => ([], (Ret tt, d))
  | f :: funcs =>
      match parsePrims srcName (fn_Name f) with
      | Ret prims =>
          match funcDecl f prims d with
          | (Ret fn, d) =>
              match Fprint fn with
              | Ret _ => let (decls, r) := ll2go srcName funcs d in (fn :: decls, r)
              | Fail e => ([fn], (Fail e, d))
              | Abort s => ([fn], (Abort s, d))
              end
          | (Fail e, d) => ([], (Fail e, d))
          | (Abort s, d) => ([], (Abort s, d))
          end
      | Fail e => ([], (Fail e, d))
      | Abort s => ([], (Abort s, d))
      end
  end.

End funcDecl.

(** ** The merge of the blocks of a primitive *)

Section prim.

Variable insts : list Instruction → outcome (list Stmt).

(** Modelled from the spec: the synthesis of the structured statement of a
    primitive (the per-kind part of the method [prim], which is not part of
    the sources at hand), from the kind of the primitive and its members in
    declared order, each with its role, its block and its statement
    sequence. *)
Variable synth : string → list (string * basicBlock * list Stmt) → outcome Stmt.

Definition unresolved (label : string) : error :=
  Err UnresolvedReference ("unable to locate basic block " +:+ label).

(** Modelled from the spec: step 1 of the region reducer, missing with the
    method [prim].  Each member label is resolved against the block map, in
    declared order; a missing label is an UnresolvedReference. *)
Fixpoint resolve (d : decompiler) (members : list (string * string))
  : outcome (list (string * basicBlock)) :=
  match members with
  | [] => Ret []
  | (role, label) :: members =>
      match blocks d !! label with
      | None => Fail (unresolved label)
      | Some b => obind (resolve d members) (λ bs, Ret ((role, b) :: bs))
      end
  end.

(** Modelled from the spec: step 2 of the region reducer, missing with the
    method [prim].  The statement sequence of each member, as [stmts] gives
    it. *)
Fixpoint sequences (members : list (string * basicBlock))
  : outcome (list (string * basicBlock * list Stmt)) :=
  match members with
  | [] => Ret []
  | (role, b) :: members =>
      obind (stmts insts b) (λ ss,
      obind (sequences members) (λ rest, Ret ((role, b, ss) :: rest)))
  end.

(** Modelled from the spec: the method [prim] of the decompiler, which is not
    part of the sources at hand.  The members are resolved, their statement
    sequences obtained and one structured statement synthesized; the new
    block is labelled by the primitive, its statements are exactly that
    statement, and it has no terminator of its own.  The members are removed
    and the new block is inserted by [funcDecl]. *)
Definition primSpec (d : decompiler) (p : Primitive) : outcome basicBlock :=
  obind (resolve d (Nodes p)) (λ members,
  obind (sequences members) (λ seqs,
  obind (synth (Prim p) seqs) (λ s,
  Ret {| blk_BasicBlock := {| bb_Name := Node p; bb_Insts := []; bb_Term := None |};
         blk_stmts := [s];
         blk_out := [] |}))).

End prim.

(** ** The translators, for running the decompiler *)

Definition unsupported {A} (what : string) : outcome A :=
  Abort ("support for " +:+ what +:+ " not yet implemented").

Fixpoint mapM {A B} (f : A → outcome B) (l : list A) : outcome (list B) :=
  match l with
  | [] => Ret []
  | x :: l => obind (f x) (λ y, obind (mapM f l) (λ ys, Ret (y :: ys)))
  end.

(** Modelled from the spec: the method [goType], which is not part of the
    sources at hand.  Integer types by bit width, pointer types, function
    types and aggregate types map to the corresponding Go type expressions;
    an unrecognized type is not supported. *)
Fixpoint goTypeSpec (t : irType) : outcome Expr :=
  match t with
  | IntType bits => Ret (EIdent (NewIdent ("int" +:+ pretty bits)))
  | PointerType elem => obind (goTypeSpec elem) (λ e, Ret (StarExpr e))
  | ArrayT len elem =>
      obind (goTypeSpec elem) (λ e, Ret (ArrayType (BasicLit INT (pretty len)) e))
  | StructT fields =>
      obind (mapM goTypeSpec fields) (λ es, Ret (StructType es))
  | FuncT ret params =>
      obind (mapM goTypeSpec params) (λ ps,
      match ret with
      | VoidType => Ret (EFuncType ps [])
      | _ => obind (goTypeSpec ret) (λ r, Ret (EFuncType ps [r]))
      end)
  | FloatType _ | VoidType | LabelType | MetadataType => unsupported "type"
  end.

(** Modelled from the spec: the method [insts], which is not part of the
    sources at hand.  Each instruction other than a phi becomes one
    assignment of an expression over its operands to its binding, in the
    order of the instructions; a phi contributes no statement. *)
Fixpoint instsSpec (l : list Instruction) : outcome (list Stmt) :=
  match l with
  | [] => Ret []
  | InstPhi _ _ :: l => instsSpec l
  | InstOp name op operands :: l =>
      obind (mapM value operands) (λ args,
      obind (instsSpec l) (λ ss,
      Ret (AssignStmt [EIdent (local name)] ASSIGN
             [CallExpr (EIdent (NewIdent op)) args] :: ss)))
  end.

(** Modelled from the spec: the method [term], which is not part of the
    sources at hand.  The terminator of the block that survives becomes a
    return of the translated operand or a marker of unreachable code; other
    terminators are not supported at this place. *)
Definition termSpec (t : option Terminator) : outcome Stmt :=
  match t with
  | Some (TermRet None) => Ret (ReturnStmt [])
  | Some (TermRet (Some v)) => obind (value v) (λ e, Ret (ReturnStmt [e]))
  | Some TermUnreachable =>
      Ret (ExprStmt (CallExpr (EIdent (NewIdent "panic")) [BasicLit STRING "unreachable"]))
  | Some (TermBr _) | Some (TermCondBr _ _ _) | None => unsupported "terminator"
  end.

(** Modelled from the spec: the statement synthesized for a primitive, which
    is not part of the sources at hand, for the kind sequence; the other
    kinds are reported as not supported.  A sequence concatenates the
    statement sequences of its members in declared order. *)
Definition synthSpec (kind : string) (members : list (string * basicBlock * list Stmt))
  : outcome Stmt :=
  if decide (kind = "sequence") then
    Ret (BlockStmt (concat (snd <$> members)))
  else Fail (Err UnsupportedConstruct ("primitive " +:+ kind)).

(** The decompiler as it runs: the translators above and the entries of a
    Go map visited in the given order. *)
Definition decompile (range : list (string * string) → list (string * string))
  (f : Function) (prims : list Primitive) : M FuncDecl :=
  funcDecl goTypeSpec termSpec (primSpec instsSpec synthSpec) range f prims.

(** ** What the emitted assignments compute *)

(** The value of an identifier or of an integer literal in an environment. *)
Definition evalExpr (ρ : gmap string Z) (e : Expr) : option Z :=
  match e with
  | EIdent id => ρ !! IdentName id
  | BasicLit INT s => Z.of_int <$> NilZero.int_of_string s
  | _ => None
  end.

(** The Go assignment [x = e]. *)
Definition execStmt (ρ : gmap string Z) (s : Stmt) : option (gmap string Z) :=
  match s with
  | AssignStmt [EIdent id] ASSIGN [e] =>
      match evalExpr ρ e with
      | Some v => Some (<[IdentName id := v]> ρ)
      | None => None
      end
  | _ => None
  end.

Fixpoint execStmts (ρ : gmap string Z) (l : list Stmt) : option (gmap string Z) :=
  match l with
  | [] => Some ρ
  | s :: l =>
      match execStmt ρ s with
      | Some ρ' => execStmts ρ' l
      | None => None
      end
  end.

(** ** The phi instructions of a function and its control flow graph *)

(** The resolution of the phi instructions of a function: the block map is
    reset and the outgoing values are recorded. *)
Definition resolvePhis (f : Function) : M unit :=
  resetBlocks (fn_Blocks f) ;; recordPhis (fn_Blocks f).

(** The incoming pairs of the phi instructions, each with the binding of its
    phi, in the order of the blocks, of the instructions and of the pairs. *)
Definition instIncs (i : Instruction) : list (string * Incoming) :=
  match i with
  | InstPhi name incs => (λ inc, (name, inc)) <$> incs
  | _ => []
  end.

Definition phiIncs (bs : list BasicBlock) : list (string * Incoming) :=
  b ← bs; i ← bb_Insts b; instIncs i.

(** The assignment an incoming pair contributes to the edge from [E]. *)
Definition incAssign (E : string) (ni : string * Incoming) : list Stmt :=
  if decide (inc_Pred ni.2 = E) then
    match value (inc_X ni.2) with
    | Ret e => [AssignStmt [EIdent (local ni.1)] ASSIGN [e]]
    | _ => []
    end
  else [].

(** Sequential assignment: one assignment per incoming pair on the edge from
    [E], straight to the binding of the phi, in declaration order. *)
Definition phiAssigns (bs : list BasicBlock) (E : string) : list Stmt :=
  b ← bs; i ← bb_Insts b; ni ← instIncs i; incAssign E ni.

(** Simultaneous assignment: after the assignments on the edge from [E], the
    binding of each phi holds the value its incoming value had before them. *)
Definition simultaneous (f : Function) (d : decompiler) : Prop :=
  ∀ E b ρ ρ', blocks d !! E = Some b →
    execStmts ρ (blk_out b) = Some ρ' →
    ∀ name inc e, (name, inc) ∈ phiIncs (fn_Blocks f) →
      inc_Pred inc = E → value (inc_X inc) = Ret e →
      ρ' !! IdentName (local name) = evalExpr ρ e.

Definition succs (t : option Terminator) : list string :=
  match t with
  | Some (TermBr target) => [target]
  | Some (TermCondBr _ targetTrue targetFalse) => [targetTrue; targetFalse]
  | _ => []
  end.

(** The actual predecessors of the block labelled [l]. *)
Definition preds (bs : list BasicBlock) (l : string) : gset string :=
  list_to_set (bb_Name <$> filter (λ b, l ∈ succs (bb_Term b)) bs).

(** The incoming labels of every phi are exactly the predecessors of its
    block. *)
Definition phisMatchPreds (bs : list BasicBlock) : Prop :=
  Forall (λ b, Forall (λ i,
    match i with
    | InstPhi _ incs => list_to_set (inc_Pred <$> incs) = preds bs (bb_Name b)
    | _ => True
    end) (bb_Insts b)) bs.

(** What makes the recording of an incoming pair run through. *)
Definition incResolves (bs : list BasicBlock) (ni : string * Incoming) : Prop :=
  (∃ e, value (inc_X ni.2) = Ret e) ∧ inc_Pred ni.2 ∈ bb_Name <$> bs.

(** ** The effect of a computation on the outgoing buffers *)

Definition appendOut (ss : list Stmt) (b : basicBlock) : basicBlock :=
  {| blk_BasicBlock := blk_BasicBlock b;
     blk_stmts := blk_stmts b;
     blk_out := blk_out b ++ ss |}.

(** From [d] to [d'] the block under each label [E] has got [adds E] at the
    end of its outgoing buffer, and nothing else has changed. *)
Definition appended (adds : string → list Stmt) (d d' : decompiler) : Prop :=
  ∀ E, blocks d' !! E = appendOut (adds E) <$> blocks d !! E.

(** The block map that holds the blocks of a function and nothing else. *)
Definition seed (bs : list BasicBlock) (m : gmap string basicBlock) : gmap string basicBlock :=
  foldl (λ m block,
    <[bb_Name block := {| blk_BasicBlock := block; blk_stmts := []; blk_out := [] |}]> m) m bs.

(** ** Functions to run the decompiler on *)

Definition mkBlock (name : string) (body : list Instruction) (t : Terminator) : BasicBlock :=
  {| bb_Name := name; bb_Insts := body; bb_Term := Some t |}.

Definition i32 : irType := IntType 32.

(** Two phis of one block, the second of which takes the binding of the first
    on the edge from [A]:
    [d1 = phi [1, A], [b1, B]] and [d2 = phi [d1, A], [b2, B]]. *)
Definition swapFn : Function :=
  {| fn_Name := "swap";
     fn_Sig := FuncT i32 [];
     fn_Blocks :=
       [ mkBlock "A" [] (TermBr "target");
         mkBlock "B" [] (TermBr "target");
         mkBlock "target"
           [ InstPhi "d1" [ {| inc_X := VConst (CInt 32 1); inc_Pred := "A" |};
                            {| inc_X := VLocal "b1"; inc_Pred := "B" |} ];
             InstPhi "d2" [ {| inc_X := VLocal "d1"; inc_Pred := "A" |};
                            {| inc_X := VLocal "b2"; inc_Pred := "B" |} ] ]
           (TermRet (Some (VLocal "d2"))) ] |}.

(** A block without predecessor whose phi names the block itself. *)
Definition selfPhiFn : Function :=
  {| fn_Name := "f";
     fn_Sig := FuncT VoidType [];
     fn_Blocks :=
       [ mkBlock "A" [ InstPhi "x" [ {| inc_X := VConst (CInt 32 1); inc_Pred := "A" |} ] ]
           (TermRet None) ] |}.

(** ** The reduction of the block map *)

Definition deleteAll (labels : list string) (m : gmap string basicBlock) : gmap string basicBlock :=
  foldl (λ m label, delete label m) m labels.

(** The block map after a primitive has been merged into [block]. *)
Definition merged (labels : list string) (block : basicBlock) (m : gmap string basicBlock)
  : gmap string basicBlock :=
  <[bb_Name (blk_BasicBlock block) := block]> (deleteAll labels m).

(** The member labels of a primitive. *)
Definition members (p : Primitive) : list string := (Nodes p).*2.

(** The member labels of the primitives partition the block labels of the
    function: every block label is a member of exactly one primitive, once. *)
Definition partitions (prims : list Primitive) (f : Function) : Prop :=
  concat (members <$> prims) ≡ₚ bb_Name <$> fn_Blocks f.

(** Two blocks in a row; four blocks in a row. *)
Definition twoFn (a b : string) : Function :=
  {| fn_Name := "two";
     fn_Sig := FuncT VoidType [];
     fn_Blocks := [ mkBlock a [] (TermBr b); mkBlock b [] (TermRet None) ] |}.

Definition fourFn : Function :=
  {| fn_Name := "four";
     fn_Sig := FuncT VoidType [];
     fn_Blocks := [ mkBlock "A" [] (TermBr "B"); mkBlock "B" [] (TermBr "C");
                    mkBlock "C" [] (TermBr "D"); mkBlock "D" [] (TermRet None) ] |}.

Definition sequenceOf (node a b : string) : Primitive :=
  {| Prim := "sequence"; Node := node; Nodes := [("entry", a); ("exit", b)] |}.

(** [define i32 @inc(i32 %x) { %y = add i32 %x, 1  ret i32 %y }]. *)
Definition incFn : Function :=
  {| fn_Name := "inc";
     fn_Sig := FuncT i32 [i32];
     fn_Blocks :=
       [ mkBlock "0" [ InstOp "y" "add" [VLocal "x"; VConst (CInt 32 1)] ]
           (TermRet (Some (VLocal "y"))) ] |}.

(** [declare i32 @puts(i8* )]. *)
Definition putsFn : Function :=
  {| fn_Name := "puts"; fn_Sig := FuncT i32 [PointerType (IntType 8)]; fn_Blocks := [] |}.

(** A file system on which every function has an empty list of primitives. *)
Definition noPrims (srcName funcName : string) : outcome (list Primitive) := Ret [].

Section reduce.

Variable goType : irType → outcome Expr.
Variable term : option Terminator → outcome Stmt.
Variable prim : decompiler → Primitive → outcome basicBlock.
Variable rangeNodes : list (string * string) → list (string * string).

(** The part of [funcDecl] that ends with the check for a single block. *)
Definition reduce (f : Function) (prims : list Primitive) : M (string * basicBlock) :=
  resolvePhis f ;; recoverPrims prim rangeNodes prims ;; singleBlock.

(** The declaration of a function whose signature translates to [ps] and
    [rs]. *)
Definition declOf (f : Function) (ps rs : list Expr) (body : option (list Stmt)) : FuncDecl :=
  {| fd_Name := global (fn_Name f);
     fd_Type := {| Params := ps; Results := rs |};
     fd_Body := body |}.

End reduce.

(** The labels of the block map are those of the blocks [bs]. *)
Definition labelled (bs : list BasicBlock) (d : decompiler) : Prop :=
  dom (blocks d) = list_to_set (bb_Name <$> bs).

(** The labels of the block map after a primitive has been merged. *)
Definition consume (D : gset string) (p : Primitive) : gset string :=
  {[ Node p ]} ∪ (D ∖ list_to_set (members p)).

(** ** The functions of a module *)

Section passes.

Variable goType : irType → outcome Expr.
Variable term : option Terminator → outcome Stmt.
Variable prim : decompiler → Primitive → outcome basicBlock.
Variable rangeNodes : list (string * string) → list (string * string).
Variable parsePrims : string → string → outcome (list Primitive).
Variable Fprint : FuncDecl → outcome unit.

(** The loop of ll2go gets past the function: its primitives are read, it is
    decompiled and its declaration is printed. *)
Definition passes (srcName : string) (f : Function) : Prop :=
  ∃ prims fn,
    parsePrims srcName (fn_Name f) = Ret prims ∧
    (funcDecl goType term prim rangeNodes f prims newDecompiler).1 = Ret fn ∧
    Fprint fn = Ret tt.

End passes.

(** A standard output that takes every declaration. *)
Definition printOK (fn : FuncDecl) : outcome unit := Ret tt.

(** A run of the decompiler on a given function is settled by evaluation. *)
Ltac by_running := vm_compute; reflexivity.

(** ** Failures *)

(** The error or the panic of a Go call, if it does not return. *)
Definition failure {A} (o : outcome A) : option (error + string) :=
  match o with
  | Ret _ => None
  | Fail e => Some (inl e)
  | Abort s => Some (inr s)
  end.

(** The block with other Go statements. *)
Definition withStmts (ss : list Stmt) (b : basicBlock) : basicBlock :=
  {| blk_BasicBlock := blk_BasicBlock b; blk_stmts := ss; blk_out := blk_out b |}.

(** A phi whose incoming label names no block of the function. *)
Definition danglingPhiFn : Function :=
  {| fn_Name := "g";
     fn_Sig := FuncT VoidType [];
     fn_Blocks :=
       [ mkBlock "A" [ InstPhi "x" [ {| inc_X := VConst (CInt 32 1); inc_Pred := "Z" |} ] ]
           (TermRet None) ] |}.

(** ** Identifiers *)

(** C10, as amended: a local identifier is the IR name prefixed with an
    underscore, whatever the name; the renaming is injective and never yields
    a keyword of Go; a local identifier equals a global identifier exactly
    when the global IR name is the local IR name prefixed with an
    underscore. *)
Theorem local_prefixed :
  (∀ n, IdentName (local n) = "_" +:+ n) ∧
  (∀ n m, local n = local m → n = m) ∧
  (∀ n, IdentName (local n) ∉ go_keywords) ∧
  (∀ g, IdentName (global g) = g) ∧
  (∀ l g, local l = global g ↔ g = "_" +:+ l).
Proof.
  repeat split.
  - intros n m H. by injection H.
  - intros n H. unfold go_keywords in H. cbn in H.
    repeat (apply elem_of_cons in H as [H|H]; [discriminate H|]).
    by apply elem_of_nil in H.
  - intros H. by injection H.
  - intros ->. reflexivity.
Qed.

(** C10, as stated, fails: the local [x] and the global [_x] are emitted as
    the same identifier. *)
Lemma local_global_clash :
  ¬ (∀ l g, local l ≠ global g) ∧ local "x" = global "_x".
Proof. split; [intros H; by apply (H "x" "_x")|reflexivity]. Qed.

(** ** Constants *)

(** C9, as amended: an integer constant, a boolean being an integer of one
    bit, becomes an integer literal that spells its value in decimal,
    whatever its width; the translation of any other constant panics. *)
Theorem value_constant (c : Constant) :
  match c with
  | CInt bits X => value (VConst c) = Ret (BasicLit INT (pretty X))
  | _ => value (VConst c) = unsupported ("constant value " +:+ typeName c)
  end.
Proof. by destruct c. Qed.

(** C9, as stated, fails: float, null pointer and aggregate constants make
    the translation panic, and the literal of an integer does not keep the
    width. *)
Lemma value_constant_unsupported :
  value (VConst (CFloat "double" "1.5")) =
    Abort "support for constant value *constant.Float not yet implemented" ∧
  value (VConst (CNull (IntType 8))) =
    Abort "support for constant value *constant.Null not yet implemented" ∧
  value (VConst (CStruct [CInt 32 1; CInt 32 2])) =
    Abort "support for constant value *constant.Struct not yet implemented" ∧
  value (VConst (CArray [CInt 8 7])) =
    Abort "support for constant value *constant.Array not yet implemented" ∧
  value (VConst (CInt 8 1)) = value (VConst (CInt 64 1)).
Proof. repeat split. Qed.

(** ** Computations of the decompiler *)

Lemma bind_Ret_inv {A B} (m : M A) (k : A → M B) d b d' :
  bind m k d = (Ret b, d') → ∃ a d1, m d = (Ret a, d1) ∧ k a d1 = (Ret b, d').
Proof.
  unfold bind. destruct (m d) as [[a|e|s] d1]; intros H; [eauto|discriminate H..].
Qed.

Lemma bind_Ret {A B} (m : M A) (k : A → M B) d a d1 :
  m d = (Ret a, d1) → bind m k d = k a d1.
Proof. unfold bind. by intros ->. Qed.

Lemma forEach_cons_inv {A} (body : A → M unit) x l d d' :
  forEach body (x :: l) d = (Ret tt, d') →
  ∃ d1, body x d = (Ret tt, d1) ∧ forEach body l d1 = (Ret tt, d').
Proof. cbn. intros ([] & d1 & H1 & H2)%bind_Ret_inv. eauto. Qed.

(** A loop whose body cannot return an error cannot return one either. *)
Lemma forEach_no_Fail {A} (body : A → M unit) l :
  (∀ x d e d', body x d ≠ (Fail e, d')) →
  ∀ d e d', forEach body l d ≠ (Fail e, d').
Proof.
  intros Hbody. induction l as [|x l IH]; intros d e d'; cbn; [done|].
  unfold bind. destruct (body x d) as [[[]|e1|s] d1] eqn:Hx; [apply IH| |done].
  by destruct (Hbody x d e1 d1).
Qed.

(** A loop runs through exactly when every round does, for a body whose
    success depends on the element alone as long as [I] holds. *)
Lemma forEach_Ret_iff {A} (body : A → M unit) (I : decompiler → Prop) (Q : A → Prop) :
  (∀ x d d', I d → body x d = (Ret tt, d') → I d') →
  (∀ x d, I d → (∃ d', body x d = (Ret tt, d')) ↔ Q x) →
  ∀ l d, I d → (∃ d', forEach body l d = (Ret tt, d')) ↔ Forall Q l.
Proof.
  intros Hinv Hiff. induction l as [|x l IH]; intros d Hd.
  - split; [constructor|]. intros _. by exists d.
  - rewrite Forall_cons. split.
    + intros (d' & (d1 & H1 & H2)%forEach_cons_inv). split.
      * apply (Hiff x d Hd). eauto.
      * apply (IH d1); eauto.
    + intros [(d1 & H1)%(Hiff x d Hd) Hl].
      destruct (proj2 (IH d1 (Hinv _ _ _ Hd H1)) Hl) as [d' H2].
      exists d'. cbn. by rewrite (bind_Ret _ _ _ _ _ H1).
Qed.

Lemma forEach_preserves {A} (body : A → M unit) (I : decompiler → Prop) :
  (∀ x d d', I d → body x d = (Ret tt, d') → I d') →
  ∀ l d d', I d → forEach body l d = (Ret tt, d') → I d'.
Proof.
  intros Hinv. induction l as [|x l IH]; intros d d' Hd.
  - by intros [= <-].
  - intros (d1 & H1 & H2)%forEach_cons_inv. eauto.
Qed.

(** ** Outgoing buffers *)

Lemma appended_refl d : appended (λ _, []) d d.
Proof.
  intros E. destruct (blocks d !! E) as [[bb ss out]|]; [|done].
  cbn. unfold appendOut. cbn. by rewrite app_nil_r.
Qed.

Lemma appended_trans a1 a2 d d1 d2 :
  appended a1 d d1 → appended a2 d1 d2 → appended (λ E, a1 E ++ a2 E) d d2.
Proof.
  intros H1 H2 E. rewrite H2, H1. destruct (blocks d !! E) as [b|]; [|done].
  cbn. unfold appendOut. cbn. by rewrite app_assoc.
Qed.

Lemma appended_ext a a' d d' :
  (∀ E, a E = a' E) → appended a d d' → appended a' d d'.
Proof. intros Heq H E. by rewrite <- Heq. Qed.

Lemma appended_dom a d d' : appended a d d' → dom (blocks d') = dom (blocks d).
Proof.
  intros H. apply set_eq. intros E. rewrite !elem_of_dom, H.
  by rewrite fmap_is_Some.
Qed.

Lemma forEach_appended {A} (body : A → M unit) (adds : A → string → list Stmt) :
  (∀ x d d', body x d = (Ret tt, d') → appended (adds x) d d') →
  ∀ l d d', forEach body l d = (Ret tt, d') → appended (λ E, x ← l; adds x E) d d'.
Proof.
  intros Hbody. induction l as [|x l IH]; intros d d'.
  - intros [= <-]. apply appended_refl.
  - intros (d1 & H1 & H2)%forEach_cons_inv.
    eapply appended_ext; [|eapply appended_trans; eauto]. done.
Qed.

(** What one round of the innermost loop does. *)
Lemma recordInc_inv name inc d d' :
  recordInc name inc d = (Ret tt, d') →
  ∃ e pred, value (inc_X inc) = Ret e ∧ blocks d !! inc_Pred inc = Some pred ∧
    d' = {| blocks := <[inc_Pred inc :=
              appendOut [AssignStmt [EIdent (local name)] ASSIGN [e]] pred]> (blocks d) |}.
Proof.
  unfold recordInc, bind, get, lift, put.
  destruct (value (inc_X inc)) as [e|?|?]; [|done..].
  destruct (blocks d !! inc_Pred inc) as [pred|]; [|done].
  intros [= <-]. by exists e, pred.
Qed.

Lemma recordInc_appended name inc d d' :
  recordInc name inc d = (Ret tt, d') → appended (λ E, incAssign E (name, inc)) d d'.
Proof.
  intros (e & pred & He & Hpred & ->)%recordInc_inv E. unfold incAssign. cbn.
  rewrite He. case_decide as HE.
  - subst E. by rewrite lookup_insert_eq, Hpred.
  - rewrite lookup_insert_ne by done.
    destruct (blocks d !! E) as [[bb ss out]|]; [|done].
    cbn. unfold appendOut. cbn. by rewrite app_nil_r.
Qed.

Lemma recordInst_appended i d d' :
  recordInst i d = (Ret tt, d') → appended (λ E, ni ← instIncs i; incAssign E ni) d d'.
Proof.
  destruct i as [name incs|name op operands]; cbn.
  - intros H. eapply appended_ext;
      [|apply (forEach_appended _ (λ inc E, incAssign E (name, inc))
                 (recordInc_appended name) _ _ _ H)].
    intros E. by rewrite list_fmap_bind.
  - intros [= <-]. apply appended_refl.
Qed.

Lemma recordPhis_appended bs d d' :
  recordPhis bs d = (Ret tt, d') → appended (phiAssigns bs) d d'.
Proof.
  intros H. unfold recordPhis in H.
  apply (forEach_appended _ (λ b E, i ← bb_Insts b; ni ← instIncs i; incAssign E ni)) in H;
    [exact H|].
  intros b d1 d2 Hb.
  by apply (forEach_appended _ (λ i E, ni ← instIncs i; incAssign E ni) recordInst_appended) in Hb.
Qed.

(** The block map after the reset. *)
Lemma resetBlocks_seed bs d :
  resetBlocks bs d = (Ret tt, {| blocks := seed bs ∅ |}).
Proof.
  unfold resetBlocks, bind at 1, put.
  generalize (∅ : gmap string basicBlock).
  induction bs as [|b bs IH]; intros m; [done|].
  cbn. unfold bind at 1, get, put. cbn. apply IH.
Qed.

Lemma seed_lookup bs m E b :
  seed bs m !! E = Some b →
  m !! E = Some b ∨
  (∃ block, block ∈ bs ∧ bb_Name block = E ∧
     b = {| blk_BasicBlock := block; blk_stmts := []; blk_out := [] |}).
Proof.
  revert m. induction bs as [|b0 bs IH]; intros m; cbn; [by left|].
  intros [H|(block & ? & ? & ?)]%IH.
  - destruct (decide (bb_Name b0 = E)) as [<-|Hne].
    + rewrite lookup_insert_eq in H. injection H as Hb. subst b.
      right. eexists. split; [left|done].
    + rewrite lookup_insert_ne in H by done. by left.
  - right. exists block. split; [by right|done].
Qed.

Lemma seed_dom bs m :
  dom (seed bs m) = list_to_set (bb_Name <$> bs) ∪ dom m.
Proof.
  revert m. induction bs as [|b bs IH]; intros m; [set_solver|].
  change (seed (b :: bs) m) with
    (seed bs (<[bb_Name b := {| blk_BasicBlock := b; blk_stmts := []; blk_out := [] |}]> m)).
  rewrite IH, dom_insert_L. set_solver.
Qed.

(** ** Resolution of the phi instructions *)

Lemma resolvePhis_inv f d d' :
  resolvePhis f d = (Ret tt, d') →
  recordPhis (fn_Blocks f) {| blocks := seed (fn_Blocks f) ∅ |} = (Ret tt, d').
Proof.
  unfold resolvePhis. intros (? & d1 & H1 & H2)%bind_Ret_inv.
  rewrite resetBlocks_seed in H1. by simplify_eq.
Qed.

Lemma resolvePhis_appended f d d' :
  resolvePhis f d = (Ret tt, d') →
  appended (phiAssigns (fn_Blocks f)) {| blocks := seed (fn_Blocks f) ∅ |} d'.
Proof. intros H%resolvePhis_inv. by apply recordPhis_appended. Qed.

Lemma resolvePhis_lookup f d d' E b :
  resolvePhis f d = (Ret tt, d') → blocks d' !! E = Some b →
  ∃ block, block ∈ fn_Blocks f ∧ bb_Name block = E ∧
    b = {| blk_BasicBlock := block; blk_stmts := [];
           blk_out := phiAssigns (fn_Blocks f) E |}.
Proof.
  intros H%resolvePhis_appended Hb. rewrite (H E) in Hb. cbn in Hb.
  destruct (seed (fn_Blocks f) ∅ !! E) as [b0|] eqn:Hb0; [|done].
  apply seed_lookup in Hb0 as [Hb0|(block & Hin & Hname & ->)]; [by rewrite lookup_empty in Hb0|].
  injection Hb as <-. by exists block.
Qed.

Lemma resolvePhis_dom f d d' :
  resolvePhis f d = (Ret tt, d') →
  dom (blocks d') = list_to_set (bb_Name <$> fn_Blocks f).
Proof.
  intros H%resolvePhis_appended%appended_dom. rewrite H. cbn.
  rewrite seed_dom. set_solver.
Qed.

(** C1, as amended: on the edge from a predecessor the resolver emits one
    assignment per incoming pair, straight to the binding of the phi and in
    declaration order, without temporaries: the outgoing buffer of every
    block is the sequential list of these assignments. *)
Theorem phi_assignments_sequential f d d' :
  resolvePhis f d = (Ret tt, d') →
  ∀ E b, blocks d' !! E = Some b → blk_out b = phiAssigns (fn_Blocks f) E.
Proof.
  intros H E b Hb.
  by destruct (resolvePhis_lookup _ _ _ _ _ H Hb) as (block & _ & _ & ->).
Qed.

(** The buffer of [A] in the function of the two phis. *)
Lemma phi_assignments_sequential_witness :
  ∃ d' b, resolvePhis swapFn newDecompiler = (Ret tt, d') ∧
    blocks d' !! "A" = Some b ∧
    blk_out b = phiAssigns (fn_Blocks swapFn) "A".
Proof.
  set (d' := (resolvePhis swapFn newDecompiler).2).
  assert (Hrun : resolvePhis swapFn newDecompiler = (Ret tt, d')) by by_running.
  destruct (blocks d' !! "A") as [b|] eqn:Hb; [|vm_compute in Hb; discriminate Hb].
  exists d', b. split; [exact Hrun|]. split; [exact Hb|].
  exact (phi_assignments_sequential swapFn newDecompiler d' Hrun "A" b Hb).
Defined.

(** C1, as stated, fails: on the edge from [A] the binding of [d2] is
    assigned after the binding of [d1] and reads the value just written, 1,
    where [d1] held 5 at the end of [A]. *)
Lemma phi_assignments_not_simultaneous :
  ∃ d', resolvePhis swapFn newDecompiler = (Ret tt, d') ∧
    blk_out <$> blocks d' !! "A" =
      Some [ AssignStmt [EIdent (NewIdent "_d1")] ASSIGN [BasicLit INT "1"];
             AssignStmt [EIdent (NewIdent "_d2")] ASSIGN [EIdent (NewIdent "_d1")] ] ∧
    (λ ρ, ρ !! "_d2") <$>
      execStmts {[ "_d1" := 5%Z ]}
        [ AssignStmt [EIdent (NewIdent "_d1")] ASSIGN [BasicLit INT "1"];
          AssignStmt [EIdent (NewIdent "_d2")] ASSIGN [EIdent (NewIdent "_d1")] ]
      = Some (Some 1%Z) ∧
    ¬ simultaneous swapFn d'.
Proof.
  set (d' := (resolvePhis swapFn newDecompiler).2).
  assert (Hrun : resolvePhis swapFn newDecompiler = (Ret tt, d')) by by_running.
  exists d'. split; [exact Hrun|]. split; [by vm_compute|]. split; [by vm_compute|].
  intros Hsim.
  destruct (blocks d' !! "A") as [b|] eqn:Hb; [|vm_compute in Hb; discriminate Hb].
  assert (Hout : blk_out b = phiAssigns (fn_Blocks swapFn) "A").
  { by destruct (resolvePhis_lookup _ _ _ _ _ Hrun Hb) as (block & _ & _ & ->). }
  destruct (execStmts {[ "_d1" := 5%Z ]} (blk_out b)) as [ρ'|] eqn:Hexec;
    [|rewrite Hout in Hexec; vm_compute in Hexec; discriminate Hexec].
  specialize (Hsim "A" b {[ "_d1" := 5%Z ]} ρ' Hb Hexec
                "d2" {| inc_X := VLocal "d1"; inc_Pred := "A" |} (EIdent (local "d1"))).
  rewrite Hout in Hexec. vm_compute in Hexec. injection Hexec as <-.
  assert (Hin : ("d2", {| inc_X := VLocal "d1"; inc_Pred := "A" |}) ∈ phiIncs (fn_Blocks swapFn)).
  { cbn. do 2 right. left. }
  specialize (Hsim Hin eq_refl eq_refl). vm_compute in Hsim. discriminate Hsim.
Qed.

Lemma value_no_Fail v e : value v ≠ Fail e.
Proof. destruct v as [| | |[]|]; done. Qed.

Lemma recordInc_no_Fail name inc d e d' : recordInc name inc d ≠ (Fail e, d').
Proof.
  unfold recordInc, bind, get, lift, put.
  destruct (value (inc_X inc)) as [x|e1|?] eqn:Hv; [|by destruct (value_no_Fail _ _ Hv)|done].
  by destruct (blocks d !! inc_Pred inc).
Qed.

Lemma recordPhis_no_Fail bs d e d' : recordPhis bs d ≠ (Fail e, d').
Proof.
  apply forEach_no_Fail. intros b. apply forEach_no_Fail.
  intros [name incs|]; cbn; [|done]. apply forEach_no_Fail, recordInc_no_Fail.
Qed.

Section resolves.

Variable bs : list BasicBlock.

Lemma recordInc_Ret_iff name inc d :
  labelled bs d → (∃ d', recordInc name inc d = (Ret tt, d')) ↔ incResolves bs (name, inc).
Proof.
  intros Hd. unfold incResolves. cbn [fst snd]. split.
  - intros [d' (e & pred & He & Hpred & _)%recordInc_inv]. split; [eauto|].
    apply (elem_of_list_to_set (C := gset string)). rewrite <- Hd. by apply elem_of_dom.
  - intros [[e He] Hin]. apply (elem_of_list_to_set (C := gset string)) in Hin.
    rewrite <- Hd in Hin. apply elem_of_dom in Hin as [pred Hpred].
    unfold recordInc, bind, get, lift, put. rewrite He, Hpred. eauto.
Qed.

Lemma recordInc_labelled name inc d d' :
  labelled bs d → recordInc name inc d = (Ret tt, d') → labelled bs d'.
Proof. intros Hd H%recordInc_appended%appended_dom. unfold labelled. by rewrite H. Qed.

Lemma recordInst_labelled i d d' :
  labelled bs d → recordInst i d = (Ret tt, d') → labelled bs d'.
Proof.
  destruct i as [name incs|]; cbn; [|by intros ? [= <-]].
  apply forEach_preserves, recordInc_labelled.
Qed.

Lemma recordInst_Ret_iff i d :
  labelled bs d → (∃ d', recordInst i d = (Ret tt, d')) ↔ Forall (incResolves bs) (instIncs i).
Proof.
  intros Hd. destruct i as [name incs|]; cbn.
  - rewrite Forall_fmap.
    apply (forEach_Ret_iff _ (labelled bs)); [apply recordInc_labelled|apply recordInc_Ret_iff|done].
  - split; [constructor|eauto].
Qed.

Lemma recordPhis_Ret_iff l d :
  labelled bs d → (∃ d', recordPhis l d = (Ret tt, d')) ↔ Forall (incResolves bs) (phiIncs l).
Proof.
  intros Hd. unfold phiIncs. rewrite Forall_bind.
  apply (forEach_Ret_iff _ (labelled bs)); [| |done].
  - intros b. apply forEach_preserves, recordInst_labelled.
  - intros b d1 Hd1. cbn. rewrite Forall_bind.
    apply (forEach_Ret_iff _ (labelled bs));
      [apply recordInst_labelled|apply recordInst_Ret_iff|done].
Qed.

End resolves.

(** C3, as amended: the resolver does not compare the incoming labels of a
    phi with the predecessors of its block.  It runs through exactly when
    every incoming label names a block of the function and every incoming
    value is one that [value] translates; it then commits the assignment of
    every incoming pair to the buffer of the block the pair names; and it
    never returns an error. *)
Theorem resolvePhis_unchecked f d :
  ((∃ d', resolvePhis f d = (Ret tt, d')) ↔
     Forall (incResolves (fn_Blocks f)) (phiIncs (fn_Blocks f))) ∧
  (∀ d' E b, resolvePhis f d = (Ret tt, d') → blocks d' !! E = Some b →
     blk_out b = phiAssigns (fn_Blocks f) E) ∧
  (∀ e d', resolvePhis f d ≠ (Fail e, d')).
Proof.
  assert (Hrun : resolvePhis f d = recordPhis (fn_Blocks f) {| blocks := seed (fn_Blocks f) ∅ |}).
  { unfold resolvePhis. by rewrite (bind_Ret _ _ _ _ _ (resetBlocks_seed _ _)). }
  split; [|split].
  - rewrite Hrun. apply recordPhis_Ret_iff. unfold labelled. cbn.
    rewrite seed_dom. set_solver.
  - intros d' E b H Hb.
    by destruct (resolvePhis_lookup _ _ _ _ _ H Hb) as (block & _ & _ & ->).
  - intros e d'. rewrite Hrun. apply recordPhis_no_Fail.
Qed.

(** C3, as stated, fails: the only block of the function has no predecessor
    and its phi names an incoming block; the assignment is committed to the
    buffer of that block and the declaration is returned. *)
Lemma mismatched_phi_accepted :
  ¬ phisMatchPreds (fn_Blocks selfPhiFn) ∧
  ∃ d', decompile (λ l, l) selfPhiFn [] newDecompiler =
          (Ret {| fd_Name := NewIdent "f";
                  fd_Type := {| Params := []; Results := [] |};
                  fd_Body := Some [ReturnStmt []] |}, d') ∧
        blk_out <$> blocks d' !! "A" =
          Some [AssignStmt [EIdent (NewIdent "_x")] ASSIGN [BasicLit INT "1"]].
Proof.
  split.
  - intros H. apply Forall_cons in H as [H _]. apply Forall_cons in H as [H _].
    assert (Hin : "A" ∈ preds (fn_Blocks selfPhiFn) "A").
    { change ("A" ∈ preds (fn_Blocks selfPhiFn)
                (bb_Name (mkBlock "A"
                   [InstPhi "x" [{| inc_X := VConst (CInt 32 1); inc_Pred := "A" |}]]
                   (TermRet None)))).
      rewrite <- H. set_solver. }
    unfold preds in Hin. apply elem_of_list_to_set, list_elem_of_fmap in Hin as (b & _ & Hb).
    apply list_elem_of_filter in Hb as [Hsucc Hb].
    apply list_elem_of_singleton in Hb as ->. by apply elem_of_nil in Hsucc.
  - exists (decompile (λ l, l) selfPhiFn [] newDecompiler).2.
    split; by vm_compute.
Qed.

(** ** Deletion of the merged blocks *)

Lemma deleteAll_lookup labels m E :
  deleteAll labels m !! E = if decide (E ∈ labels) then None else m !! E.
Proof.
  revert m. induction labels as [|l labels IH]; intros m.
  - by rewrite decide_False by apply not_elem_of_nil.
  - change (deleteAll (l :: labels) m) with (deleteAll labels (delete l m)).
    rewrite IH.
    destruct (decide (E ∈ labels)) as [Hin|Hin].
    + by rewrite decide_True by by right.
    + destruct (decide (E = l)) as [->|Hne].
      * rewrite lookup_delete_eq. by rewrite decide_True by left.
      * rewrite lookup_delete_ne by done.
        rewrite decide_False; [done|]. by intros [?|?]%elem_of_cons.
Qed.

(** The order in which the blocks are deleted does not matter. *)
Lemma deleteAll_perm labels labels' m :
  labels ≡ₚ labels' → deleteAll labels m = deleteAll labels' m.
Proof.
  intros Hperm. apply map_eq. intros E. rewrite !deleteAll_lookup.
  destruct (decide (E ∈ labels)) as [Hin|Hin].
  - by rewrite decide_True by by rewrite <- Hperm.
  - by rewrite decide_False by by rewrite <- Hperm.
Qed.

Lemma deleteAll_covered labels m :
  (∀ E, is_Some (m !! E) → E ∈ labels) → deleteAll labels m = ∅.
Proof.
  intros Hcov. apply map_eq. intros E. rewrite deleteAll_lookup, lookup_empty.
  case_decide as Hin; [done|]. destruct (m !! E) eqn:HE; [|done].
  destruct Hin. apply Hcov. by rewrite HE.
Qed.

Section reduction.

Variable goType : irType → outcome Expr.
Variable term : option Terminator → outcome Stmt.
Variable prim : decompiler → Primitive → outcome basicBlock.
Variable rangeNodes : list (string * string) → list (string * string).

Lemma deleteNodes_run p d :
  deleteNodes rangeNodes p d =
    (Ret tt, {| blocks := deleteAll (rangeNodes (Nodes p)).*2 (blocks d) |}).
Proof.
  unfold deleteNodes. destruct d as [m]. cbn [blocks].
  generalize (rangeNodes (Nodes p)). intros l. revert m.
  induction l as [|[role label] l IH]; intros m; [done|].
  cbn. unfold bind at 1, get, put. cbn. apply IH.
Qed.

(** One round of the loop over the primitives. *)
Lemma recoverPrims_cons p prims d :
  recoverPrims prim rangeNodes (p :: prims) d =
    match prim d p with
    | Ret block =>
        recoverPrims prim rangeNodes prims
          {| blocks := merged (rangeNodes (Nodes p)).*2 block (blocks d) |}
    | Fail e => (Fail e, d)
    | Abort s => (Abort s, d)
    end.
Proof.
  unfold recoverPrims at 1. cbn. unfold bind at 1 2. destruct (prim d p) as [block|e|s]; [|done..].
  unfold bind at 1. rewrite deleteNodes_run. reflexivity.
Qed.

Lemma recoverPrims_nil d : recoverPrims prim rangeNodes [] d = (Ret tt, d).
Proof. reflexivity. Qed.

Lemma singleBlock_incomplete d :
  size (blocks d) ≠ 1 → singleBlock d = (Fail (reductionError (size (blocks d))), d).
Proof. intros H. unfold singleBlock, bind, get, lift. by rewrite decide_True. Qed.

Lemma singleBlock_singleton k b :
  singleBlock {| blocks := {[ k := b ]} |} = (Ret (k, b), {| blocks := {[ k := b ]} |}).
Proof.
  unfold singleBlock, bind, get, lift. cbn.
  rewrite decide_False by (rewrite map_size_singleton; lia).
  by rewrite map_to_list_singleton.
Qed.

(** [funcDecl] for a function with blocks. *)
Lemma funcDecl_reduce f prims d ps rs :
  goType (fn_Sig f) = Ret (EFuncType ps rs) → fn_Blocks f ≠ [] →
  funcDecl goType term prim rangeNodes f prims d =
    bind (reduce prim rangeNodes f prims) (λ kb,
      bind (recoverBody term kb) (λ body, ret (declOf f ps rs (Some body)))) d.
Proof.
  intros Hsig Hne. unfold funcDecl, reduce, resolvePhis. unfold bind at 1, lift. rewrite Hsig.
  rewrite decide_False by (destruct (fn_Blocks f); [done|cbn; lia]).
  unfold bind.
  destruct (resetBlocks (fn_Blocks f) d) as [[[]|?|?] d0]; [|done..].
  destruct (recordPhis (fn_Blocks f) d0) as [[[]|?|?] d1]; [|done..].
  destruct (recoverPrims prim rangeNodes prims d1) as [[[]|?|?] d2]; [|done..].
  by destruct (singleBlock d2) as [[[]|?|?] d3].
Qed.

(** [funcDecl] for a function without blocks. *)
Lemma funcDecl_bodyless f prims d ps rs :
  goType (fn_Sig f) = Ret (EFuncType ps rs) → fn_Blocks f = [] →
  funcDecl goType term prim rangeNodes f prims d = (Ret (declOf f ps rs None), d).
Proof.
  intros Hsig Hnil. unfold funcDecl. unfold bind at 1, lift. rewrite Hsig, Hnil.
  by rewrite decide_True by (cbn; lia).
Qed.

Lemma funcDecl_Ret_sig f prims d fn d' :
  funcDecl goType term prim rangeNodes f prims d = (Ret fn, d') →
  ∃ ps rs, goType (fn_Sig f) = Ret (EFuncType ps rs).
Proof.
  unfold funcDecl. unfold bind at 1, lift.
  destruct (goType (fn_Sig f)) as [[]|?|?]; try done. eauto.
Qed.

Lemma funcDecl_Ret_name f prims d fn d' :
  funcDecl goType term prim rangeNodes f prims d = (Ret fn, d') →
  fd_Name fn = global (fn_Name f).
Proof.
  intros H. destruct (funcDecl_Ret_sig _ _ _ _ _ H) as (ps & rs & Hsig).
  destruct (fn_Blocks f) as [|b bs] eqn:Hbs.
  - rewrite (funcDecl_bodyless _ _ _ _ _ Hsig Hbs) in H. by injection H as <- _.
  - rewrite (funcDecl_reduce _ _ _ ps rs Hsig) in H by by rewrite Hbs.
    apply bind_Ret_inv in H as (kb & d1 & _ & H).
    apply bind_Ret_inv in H as (body & d2 & _ & H). by injection H as <- _.
Qed.

End reduction.

(** ** The region reducer *)

Section reducer.

Variable goType : irType → outcome Expr.
Variable term : option Terminator → outcome Stmt.
Variable prim : decompiler → Primitive → outcome basicBlock.
Variable rangeNodes : list (string * string) → list (string * string).

Lemma range_members p :
  range_order rangeNodes → ∀ E, E ∈ (rangeNodes (Nodes p)).*2 ↔ E ∈ members p.
Proof. intros Hrange E. unfold members. by rewrite (Hrange (Nodes p)). Qed.

(** A label that no primitive names as a member stays in the block map. *)
Lemma recoverPrims_keeps prims d d' E :
  range_order rangeNodes →
  recoverPrims prim rangeNodes prims d = (Ret tt, d') →
  (∀ p, p ∈ prims → E ∉ members p) →
  E ∈ dom (blocks d) → E ∈ dom (blocks d').
Proof.
  intros Hrange. revert d. induction prims as [|p prims IH]; intros d Hrun Hfree HE.
  - by injection Hrun as <-.
  - rewrite recoverPrims_cons in Hrun. destruct (prim d p) as [block| |]; [|done..].
    apply (IH _ Hrun); [intros q Hq; apply Hfree; by right|].
    cbn. unfold merged. rewrite dom_insert_L. apply elem_of_union_r, elem_of_dom.
    rewrite deleteAll_lookup, decide_False; [by apply elem_of_dom|].
    rewrite (range_members _ Hrange). apply Hfree. by left.
Qed.

(** C2, as amended: when the primitives have been applied and the block map
    holds a number of blocks other than one, [funcDecl] returns the error
    that reports this number, and no declaration; the labels that remain are
    not reported.  Every block label that no primitive names as a member is
    still in the block map then. *)
Theorem reduction_incomplete f prims d d1 d2 ps rs :
  range_order rangeNodes →
  goType (fn_Sig f) = Ret (EFuncType ps rs) →
  fn_Blocks f ≠ [] →
  resolvePhis f d = (Ret tt, d1) →
  recoverPrims prim rangeNodes prims d1 = (Ret tt, d2) →
  size (blocks d2) ≠ 1 →
  funcDecl goType term prim rangeNodes f prims d =
    (Fail (reductionError (size (blocks d2))), d2) ∧
  ∀ b, b ∈ fn_Blocks f → (∀ p, p ∈ prims → bb_Name b ∉ members p) →
    bb_Name b ∈ dom (blocks d2).
Proof.
  intros Hrange Hsig Hne Hphis Hprims Hsize. split.
  - rewrite (funcDecl_reduce _ _ _ _ _ _ _ ps rs Hsig Hne). unfold reduce.
    unfold bind at 1. rewrite (bind_Ret _ _ _ _ _ Hphis), (bind_Ret _ _ _ _ _ Hprims).
    by rewrite (singleBlock_incomplete _ Hsize).
  - intros b Hb Hfree. apply (recoverPrims_keeps _ _ _ _ Hrange Hprims Hfree).
    rewrite (resolvePhis_dom _ _ _ Hphis). apply elem_of_list_to_set.
    by apply list_elem_of_fmap_2.
Qed.

(** A single primitive that merges and whose members cover the block labels
    of the function leaves exactly one block, the merged one, and the check
    for a single block passes. *)
Lemma single_primitive_converges f p d d1 b :
  range_order rangeNodes →
  resolvePhis f d = (Ret tt, d1) →
  prim d1 p = Ret b →
  (∀ blk, blk ∈ fn_Blocks f → bb_Name blk ∈ members p) →
  reduce prim rangeNodes f [p] d =
    (Ret (bb_Name (blk_BasicBlock b), b),
     {| blocks := {[ bb_Name (blk_BasicBlock b) := b ]} |}) ∧
  size ({[ bb_Name (blk_BasicBlock b) := b ]} : gmap string basicBlock) = 1.
Proof.
  intros Hrange Hphis Hprim Hcover. split; [|apply map_size_singleton].
  unfold reduce. rewrite (bind_Ret _ _ _ _ _ Hphis).
  unfold bind at 1. rewrite recoverPrims_cons, Hprim, recoverPrims_nil.
  unfold merged. rewrite deleteAll_covered, insert_empty; [apply singleBlock_singleton|].
  intros E HE%elem_of_dom. rewrite (resolvePhis_dom _ _ _ Hphis) in HE.
  apply elem_of_list_to_set, list_elem_of_fmap in HE as (blk & -> & Hblk).
  apply (range_members _ Hrange). by apply Hcover.
Qed.

(** The body of the function is made of the statements of the block that
    remains and of the statement of its terminator. *)
Lemma funcDecl_survivor f prims d d2 ps rs k b t :
  goType (fn_Sig f) = Ret (EFuncType ps rs) →
  fn_Blocks f ≠ [] →
  reduce prim rangeNodes f prims d = (Ret (k, b), d2) →
  term (bb_Term (blk_BasicBlock b)) = Ret t →
  (funcDecl goType term prim rangeNodes f prims d).1 =
    Ret (declOf f ps rs (Some (blk_stmts b ++ [t]))).
Proof.
  intros Hsig Hne Hred Ht. rewrite (funcDecl_reduce _ _ _ _ _ _ _ ps rs Hsig Hne).
  rewrite (bind_Ret _ _ _ _ _ Hred). unfold recoverBody, bind, lift, get, put, ret. cbn.
  by rewrite Ht.
Qed.

Lemma reduce_single_block f b d d1 :
  fn_Blocks f = [b] → resolvePhis f d = (Ret tt, d1) →
  ∃ out, reduce prim rangeNodes f [] d =
    (Ret (bb_Name b, {| blk_BasicBlock := b; blk_stmts := []; blk_out := out |}), d1).
Proof.
  intros Hb Hphis. unfold reduce. rewrite (bind_Ret _ _ _ _ _ Hphis).
  unfold bind at 1. rewrite recoverPrims_nil.
  pose proof (resolvePhis_dom _ _ _ Hphis) as Hdom. rewrite Hb in Hdom. cbn in Hdom.
  rewrite union_empty_r_L in Hdom. apply dom_singleton_inv_L in Hdom as [blk Hd1].
  assert (Hblk : blocks d1 !! bb_Name b = Some blk) by (rewrite Hd1; apply lookup_singleton_eq).
  destruct (resolvePhis_lookup _ _ _ _ _ Hphis Hblk) as (block & Hin & _ & ->).
  rewrite Hb in Hin. apply list_elem_of_singleton in Hin as ->.
  eexists. destruct d1 as [m]. cbn in Hd1. subst m. apply singleBlock_singleton.
Qed.

(** C7: the body of a function of one block and no primitive is the
    statement of the terminator alone, whatever the instructions of the block
    are and however they are translated: the statements of a block of the
    function are empty when the map is reset, and [funcDecl] does not call
    [stmts] on the block that remains. *)
Theorem single_block_body f b d d1 ps rs t :
  goType (fn_Sig f) = Ret (EFuncType ps rs) →
  fn_Blocks f = [b] →
  resolvePhis f d = (Ret tt, d1) →
  term (bb_Term b) = Ret t →
  (funcDecl goType term prim rangeNodes f [] d).1 = Ret (declOf f ps rs (Some [t])).
Proof.
  intros Hsig Hb Hphis Ht.
  destruct (reduce_single_block _ _ _ _ Hb Hphis) as [out Hred].
  assert (Hne : fn_Blocks f ≠ []) by by rewrite Hb.
  exact (funcDecl_survivor f [] d d1 ps rs _ _ t Hsig Hne Hred Ht).
Qed.

End reducer.

Lemma range_order_id : range_order (λ l, l).
Proof. intros l. reflexivity. Qed.

Lemma range_order_reverse : range_order reverse.
Proof. intros l. apply reverse_Permutation. Qed.

(** Two blocks and no primitive: both blocks remain. *)
Lemma reduction_incomplete_witness :
  ∃ d2, decompile (λ l, l) (twoFn "a" "b") [] newDecompiler = (Fail (reductionError 2), d2) ∧
    "a" ∈ dom (blocks d2) ∧ "b" ∈ dom (blocks d2).
Proof.
  set (d2 := (resolvePhis (twoFn "a" "b") newDecompiler).2).
  assert (Hphis : resolvePhis (twoFn "a" "b") newDecompiler = (Ret tt, d2))
    by by_running.
  assert (Hsize : size (blocks d2) = 2) by by_running.
  destruct (reduction_incomplete goTypeSpec termSpec (primSpec instsSpec synthSpec) (λ l, l)
              (twoFn "a" "b") [] newDecompiler d2 d2 [] [])
    as [Hfail Hkept].
  - exact range_order_id.
  - reflexivity.
  - discriminate.
  - exact Hphis.
  - reflexivity.
  - rewrite Hsize. lia.
  - exists d2. rewrite Hsize in Hfail. split; [exact Hfail|].
    split.
    + apply (Hkept (mkBlock "a" [] (TermBr "b")));
        [left|intros p Hp; by apply elem_of_nil in Hp].
    + apply (Hkept (mkBlock "b" [] (TermRet None)));
        [right; left|intros p Hp; by apply elem_of_nil in Hp].
Defined.

(** C2, as stated, fails: two functions whose remaining labels differ get
    the same error, which gives the number of blocks and no label; and the
    blocks that remain for a function without primitives are its own two
    blocks, without any merged block. *)
Lemma reduction_error_without_labels :
  ∃ d d',
    decompile (λ l, l) (twoFn "a" "b") [] newDecompiler = (Fail (reductionError 2), d) ∧
    decompile (λ l, l) (twoFn "c" "d") [] newDecompiler = (Fail (reductionError 2), d') ∧
    dom (blocks d) = {[ "a"; "b" ]} ∧
    dom (blocks d') = {[ "c"; "d" ]} ∧
    dom (blocks d) ≠ dom (blocks d') ∧
    err_msg (reductionError 2) =
      "control flow recovery failed; unable to reduce function into a single basic block; expected 1 basic block, got 2".
Proof.
  exists (resolvePhis (twoFn "a" "b") newDecompiler).2, (resolvePhis (twoFn "c" "d") newDecompiler).2.
  assert (Hd : dom (blocks (resolvePhis (twoFn "a" "b") newDecompiler).2) = {[ "a"; "b" ]}).
  { rewrite (resolvePhis_dom (twoFn "a" "b") newDecompiler) by by_running.
    cbn. set_solver. }
  assert (Hd' : dom (blocks (resolvePhis (twoFn "c" "d") newDecompiler).2) = {[ "c"; "d" ]}).
  { rewrite (resolvePhis_dom (twoFn "c" "d") newDecompiler) by by_running.
    cbn. set_solver. }
  split; [by_running|]. split; [by_running|].
  split; [exact Hd|]. split; [exact Hd'|]. split; [|vm_compute; reflexivity].
  rewrite Hd, Hd'. intros Heq.
  assert (Ha : "a" ∈ ({[ "c"; "d" ]} : gset string)) by (rewrite <- Heq; set_solver).
  apply elem_of_union in Ha as [Ha|Ha]; apply elem_of_singleton in Ha; discriminate Ha.
Qed.

Lemma deleteAll_dom labels m :
  dom (deleteAll labels m) = dom m ∖ list_to_set labels.
Proof.
  apply set_eq. intros E.
  rewrite elem_of_difference, !elem_of_dom, deleteAll_lookup, elem_of_list_to_set.
  case_decide; [|naive_solver]. split; [by intros []|naive_solver].
Qed.

Lemma primSpec_name insts synth d p b :
  primSpec insts synth d p = Ret b → bb_Name (blk_BasicBlock b) = Node p.
Proof.
  unfold primSpec. destruct (resolve d (Nodes p)) as [ms| |]; [|done..]. cbn.
  destruct (sequences insts ms) as [seqs| |]; [|done..]. cbn.
  destruct (synth (Prim p) seqs) as [s| |]; [|done..]. cbn. by intros [= <-].
Qed.

(** The labels that remain when the members of the primitives are pairwise
    distinct labels of the block map and the labels of the merged blocks are
    new: the labels of the merged blocks, next to the labels [N] that are not
    members. *)
Lemma consume_partition prims (N : gset string) :
  NoDup (concat (members <$> prims)) →
  (∀ p, p ∈ prims → Node p ∉ concat (members <$> prims)) →
  (∀ E, E ∈ N → E ∉ concat (members <$> prims)) →
  foldl consume (N ∪ list_to_set (concat (members <$> prims))) prims =
    N ∪ list_to_set (Node <$> prims).
Proof.
  revert N. induction prims as [|p prims IH]; intros N Hdup Hfresh Hdisj; [done|].
  cbn [fmap list_fmap concat foldl] in *.
  apply NoDup_app in Hdup as (_ & Hsep & Hdup).
  assert (Hstep : consume (N ∪ list_to_set (members p ++ concat (members <$> prims))) p =
                  ({[ Node p ]} ∪ N) ∪ list_to_set (concat (members <$> prims))).
  { unfold consume. apply set_eq. intros E. specialize (Hsep E). specialize (Hdisj E).
    set_unfold. naive_solver. }
  fold (members <$> prims) in *. rewrite Hstep, IH; [set_solver|done| |].
  - intros q Hq Hin. apply (Hfresh q); [by right|]. apply elem_of_app. by right.
  - intros E [->%elem_of_singleton|HE]%elem_of_union Hin.
    + apply (Hfresh p); [left|]. apply elem_of_app. by right.
    + apply (Hdisj E HE). apply elem_of_app. by right.
Qed.

Section partition.

Variable prim : decompiler → Primitive → outcome basicBlock.
Variable rangeNodes : list (string * string) → list (string * string).

Hypothesis range_perm : range_order rangeNodes.

(** The block that [prim] returns is labelled by the primitive. *)
Hypothesis prim_Node : ∀ d p b, prim d p = Ret b → bb_Name (blk_BasicBlock b) = Node p.

Lemma recoverPrims_dom prims d d' :
  recoverPrims prim rangeNodes prims d = (Ret tt, d') →
  dom (blocks d') = foldl consume (dom (blocks d)) prims.
Proof using range_perm prim_Node.
  revert d. induction prims as [|p prims IH]; intros d Hrun.
  - by injection Hrun as <-.
  - rewrite recoverPrims_cons in Hrun. destruct (prim d p) as [b| |] eqn:Hb; [|done..].
    rewrite (IH _ Hrun). cbn. f_equal. unfold merged, consume.
    rewrite dom_insert_L, deleteAll_dom, (prim_Node _ _ _ Hb). f_equal. f_equal.
    apply set_eq. intros E. rewrite !elem_of_list_to_set. by apply range_members.
Qed.

Lemma singleBlock_one d : size (blocks d) = 1 → ∃ kb, singleBlock d = (Ret kb, d).
Proof.
  intros Hsize. unfold singleBlock, bind, get, lift.
  rewrite decide_False by lia. rewrite <- length_map_to_list in Hsize.
  destruct (map_to_list (blocks d)) as [|kb l]; [done|]. by exists kb.
Qed.

(** C4, as amended: when the member labels of the primitives partition the
    block labels of the function, each primitive merges its members into a
    block under its own label, and these labels are new and pairwise
    distinct, the primitives leave one block per primitive: the check for a
    single block passes when the list is one primitive and fails with the
    count of the primitives otherwise. *)
Theorem partition_one_block_per_primitive f prims d d1 d2 :
  NoDup (bb_Name <$> fn_Blocks f) →
  partitions prims f →
  NoDup (Node <$> prims) →
  (∀ p, p ∈ prims → Node p ∉ bb_Name <$> fn_Blocks f) →
  resolvePhis f d = (Ret tt, d1) →
  recoverPrims prim rangeNodes prims d1 = (Ret tt, d2) →
  size (blocks d2) = length prims ∧
  (length prims = 1 → ∃ kb, reduce prim rangeNodes f prims d = (Ret kb, d2)) ∧
  (length prims ≠ 1 →
     reduce prim rangeNodes f prims d = (Fail (reductionError (length prims)), d2)).
Proof using range_perm prim_Node.
  intros Hlabels Hpart Hnodes Hfresh Hphis Hprims.
  assert (Hsize : size (blocks d2) = length prims).
  { rewrite <- size_dom, (recoverPrims_dom _ _ _ Hprims), (resolvePhis_dom _ _ _ Hphis).
    rewrite <- (list_to_set_perm_L _ _ Hpart), <- (left_id_L ∅ (∪) (list_to_set _)).
    rewrite consume_partition.
    - by rewrite (left_id_L ∅ (∪)), size_list_to_set, length_fmap.
    - by rewrite Hpart.
    - intros p Hp. rewrite Hpart. by apply Hfresh.
    - intros E HE. by apply not_elem_of_empty in HE. }
  assert (Hrun : reduce prim rangeNodes f prims d = singleBlock d2).
  { unfold reduce. rewrite (bind_Ret _ _ _ _ _ Hphis). by rewrite (bind_Ret _ _ _ _ _ Hprims). }
  rewrite Hrun. split; [done|]. split; intros Hlen.
  - apply singleBlock_one. by rewrite Hsize.
  - rewrite singleBlock_incomplete by by rewrite Hsize. by rewrite Hsize.
Qed.

End partition.

(** Two blocks and one sequence of both. *)
Lemma partition_one_block_per_primitive_witness :
  ∃ d1 d2,
    resolvePhis (twoFn "a" "b") newDecompiler = (Ret tt, d1) ∧
    recoverPrims (primSpec instsSpec synthSpec) (λ l, l) [sequenceOf "X" "a" "b"] d1 = (Ret tt, d2) ∧
    size (blocks d2) = 1 ∧
    ∃ kb, reduce (primSpec instsSpec synthSpec) (λ l, l) (twoFn "a" "b")
            [sequenceOf "X" "a" "b"] newDecompiler = (Ret kb, d2).
Proof.
  set (d1 := (resolvePhis (twoFn "a" "b") newDecompiler).2).
  set (d2 := (recoverPrims (primSpec instsSpec synthSpec) (λ l, l) [sequenceOf "X" "a" "b"] d1).2).
  assert (Hphis : resolvePhis (twoFn "a" "b") newDecompiler = (Ret tt, d1))
    by by_running.
  assert (Hprims : recoverPrims (primSpec instsSpec synthSpec) (λ l, l)
                     [sequenceOf "X" "a" "b"] d1 = (Ret tt, d2))
    by by_running.
  destruct (partition_one_block_per_primitive (primSpec instsSpec synthSpec) (λ l, l)
              range_order_id (primSpec_name instsSpec synthSpec)
              (twoFn "a" "b") [sequenceOf "X" "a" "b"] newDecompiler d1 d2)
    as (Hsize & Hone & _).
  - cbn. apply NoDup_cons. split; [|apply NoDup_singleton].
    intros Hin. apply list_elem_of_singleton in Hin. discriminate Hin.
  - unfold partitions. cbn. reflexivity.
  - cbn. apply NoDup_singleton.
  - intros p Hp. apply list_elem_of_singleton in Hp as ->. cbn.
    intros Hin. apply elem_of_cons in Hin as [Hin|Hin]; [discriminate Hin|].
    apply list_elem_of_singleton in Hin. discriminate Hin.
  - exact Hphis.
  - exact Hprims.
  - exists d1, d2. split; [exact Hphis|]. split; [exact Hprims|].
    split; [exact Hsize|]. apply Hone. reflexivity.
Defined.

(** C4, as stated, fails: two sequences whose members partition the four
    block labels leave two blocks, one per primitive, and the reduction is
    reported as incomplete. *)
Lemma partition_does_not_converge :
  partitions [sequenceOf "X" "A" "B"; sequenceOf "Y" "C" "D"] fourFn ∧
  ∃ d, decompile (λ l, l) fourFn [sequenceOf "X" "A" "B"; sequenceOf "Y" "C" "D"] newDecompiler =
         (Fail (reductionError 2), d) ∧
       dom (blocks d) = {[ "X"; "Y" ]}.
Proof.
  split; [unfold partitions; cbn; reflexivity|].
  set (r := decompile (λ l, l) fourFn [sequenceOf "X" "A" "B"; sequenceOf "Y" "C" "D"] newDecompiler).
  exists r.2. split; [by_running|].
  apply set_eq. intros E. rewrite elem_of_dom.
  assert (Hr : ∃ x y, blocks r.2 = <["X" := x]> (<["Y" := y]> ∅)).
  { vm_compute. eauto. }
  destruct Hr as (x & y & ->). rewrite lookup_insert. case_decide as HX.
  - subst E. split; [set_solver|eauto].
  - rewrite lookup_insert. case_decide as HY.
    + subst E. split; [set_solver|eauto].
    + rewrite lookup_empty. split; [by intros []|]. set_solver.
Qed.

(** ** The order of the entries of a Go map *)

Section storage.

Variable goType : irType → outcome Expr.
Variable term : option Terminator → outcome Stmt.
Variable prim : decompiler → Primitive → outcome basicBlock.

Lemma recoverPrims_range range1 range2 prims d :
  range_order range1 → range_order range2 →
  recoverPrims prim range1 prims d = recoverPrims prim range2 prims d.
Proof.
  intros H1 H2. revert d. induction prims as [|p prims IH]; intros d; [done|].
  rewrite !recoverPrims_cons. destruct (prim d p) as [block| |]; [|done..].
  unfold merged.
  rewrite (deleteAll_perm (range1 (Nodes p)).*2 (range2 (Nodes p)).*2)
    by by rewrite (H1 (Nodes p)), (H2 (Nodes p)).
  apply IH.
Qed.

(** C5: the declaration [funcDecl] returns, and the decompiler it leaves,
    do not depend on the order in which the entries of the member map of a
    primitive are stored and visited; the primitives and their declared
    members are the same in both runs. *)
Theorem storage_order_irrelevant range1 range2 f prims d :
  range_order range1 → range_order range2 →
  funcDecl goType term prim range1 f prims d = funcDecl goType term prim range2 f prims d.
Proof.
  intros H1 H2. unfold funcDecl, bind, lift.
  destruct (goType (fn_Sig f)) as [[]| |]; try done.
  case_decide; [done|].
  destruct (resetBlocks (fn_Blocks f) d) as [[[]| |] d0]; [|done..].
  destruct (recordPhis (fn_Blocks f) d0) as [[[]| |] d1]; [|done..].
  by rewrite (recoverPrims_range range1 range2 prims d1 H1 H2).
Qed.

End storage.

(** The entries visited as declared and in reverse. *)
Lemma storage_order_irrelevant_witness :
  funcDecl goTypeSpec (λ _, Ret (ReturnStmt [])) (primSpec instsSpec synthSpec) (λ l, l)
    fourFn [sequenceOf "X" "A" "B"; sequenceOf "Y" "C" "D"; sequenceOf "Z" "X" "Y"] newDecompiler =
  funcDecl goTypeSpec (λ _, Ret (ReturnStmt [])) (primSpec instsSpec synthSpec) reverse
    fourFn [sequenceOf "X" "A" "B"; sequenceOf "Y" "C" "D"; sequenceOf "Z" "X" "Y"] newDecompiler.
Proof.
  exact (storage_order_irrelevant goTypeSpec (λ _, Ret (ReturnStmt []))
           (primSpec instsSpec synthSpec) (λ l, l) reverse fourFn
           [sequenceOf "X" "A" "B"; sequenceOf "Y" "C" "D"; sequenceOf "Z" "X" "Y"]
           newDecompiler range_order_id range_order_reverse).
Defined.

(** ** Members that are not in the block map *)

Section unresolved.

Variable insts : list Instruction → outcome (list Stmt).
Variable synth : string → list (string * basicBlock * list Stmt) → outcome Stmt.
Variable rangeNodes : list (string * string) → list (string * string).

Lemma resolve_missing d ms l :
  l ∈ ms.*2 → blocks d !! l = None →
  ∃ l', l' ∈ ms.*2 ∧ blocks d !! l' = None ∧ resolve d ms = Fail (unresolved l').
Proof.
  intros Hin Hnone. induction ms as [|[role label] ms IH]; [by apply elem_of_nil in Hin|].
  cbn. destruct (blocks d !! label) as [b|] eqn:Hlabel.
  - cbn in Hin. apply elem_of_cons in Hin as [->|Hin]; [congruence|].
    destruct (IH Hin) as (l' & Hl' & Hmiss & ->). exists l'.
    split; [by right|done].
  - exists label. split; [left|done].
Qed.

(** C6: a primitive one of whose member labels is not in the block map is
    not merged: [prim] returns an UnresolvedReference for the first such
    member, and the loop over the primitives stops with this error before
    it deletes or inserts a block and before it turns to the primitives that
    follow. *)
Theorem missing_member_unresolved d p l :
  l ∈ members p → blocks d !! l = None →
  ∃ l', l' ∈ members p ∧ blocks d !! l' = None ∧
    err_kind (unresolved l') = UnresolvedReference ∧
    primSpec insts synth d p = Fail (unresolved l') ∧
    ∀ prims, recoverPrims (primSpec insts synth) rangeNodes (p :: prims) d =
               (Fail (unresolved l'), d).
Proof.
  intros Hin Hnone.
  destruct (resolve_missing d (Nodes p) l Hin Hnone) as (l' & Hl' & Hmiss & Hres).
  assert (Hprim : primSpec insts synth d p = Fail (unresolved l')).
  { unfold primSpec. by rewrite Hres. }
  exists l'. repeat split; [done..|].
  intros prims. by rewrite recoverPrims_cons, Hprim.
Qed.

End unresolved.

(** A member that an earlier primitive has consumed. *)
Lemma missing_member_unresolved_witness :
  ∃ d1 d2 l',
    resolvePhis (twoFn "a" "b") newDecompiler = (Ret tt, d1) ∧
    recoverPrims (primSpec instsSpec synthSpec) (λ l, l) [sequenceOf "X" "a" "b"] d1 =
      (Ret tt, d2) ∧
    blocks d2 !! "a" = None ∧
    recoverPrims (primSpec instsSpec synthSpec) (λ l, l)
      [sequenceOf "Y" "X" "a"; sequenceOf "Z" "Y" "X"] d2 = (Fail (unresolved l'), d2).
Proof.
  set (d1 := (resolvePhis (twoFn "a" "b") newDecompiler).2).
  set (d2 := (recoverPrims (primSpec instsSpec synthSpec) (λ l, l)
                [sequenceOf "X" "a" "b"] d1).2).
  assert (Ha : blocks d2 !! "a" = None) by by_running.
  assert (Hin : "a" ∈ members (sequenceOf "Y" "X" "a")) by (right; left).
  destruct (missing_member_unresolved instsSpec synthSpec (λ l, l) d2
              (sequenceOf "Y" "X" "a") "a" Hin Ha)
    as (l' & _ & _ & _ & _ & Hloop).
  exists d1, d2, l'. split; [by_running|]. split; [by_running|].
  split; [exact Ha|apply Hloop].
Defined.

(** ** Functions of one block, functions without blocks *)

(** The assignment to [_y] is translated by [insts] and is not in the body. *)
Lemma single_block_body_witness :
  instsSpec (bb_Insts (mkBlock "0" [InstOp "y" "add" [VLocal "x"; VConst (CInt 32 1)]]
                         (TermRet (Some (VLocal "y"))))) =
    Ret [ AssignStmt [EIdent (NewIdent "_y")] ASSIGN
            [CallExpr (EIdent (NewIdent "add")) [EIdent (NewIdent "_x"); BasicLit INT "1"]] ] ∧
  (decompile (λ l, l) incFn [] newDecompiler).1 =
    Ret {| fd_Name := NewIdent "inc";
           fd_Type := {| Params := [EIdent (NewIdent "int32")];
                         Results := [EIdent (NewIdent "int32")] |};
           fd_Body := Some [ReturnStmt [EIdent (NewIdent "_y")]] |}.
Proof.
  split; [by_running|].
  set (d1 := (resolvePhis incFn newDecompiler).2).
  assert (Hphis : resolvePhis incFn newDecompiler = (Ret tt, d1)) by by_running.
  assert (Hsig : goTypeSpec (fn_Sig incFn) =
                 Ret (EFuncType [EIdent (NewIdent "int32")] [EIdent (NewIdent "int32")]))
    by by_running.
  exact (single_block_body goTypeSpec termSpec (primSpec instsSpec synthSpec) (λ l, l)
           incFn _ newDecompiler d1 _ _ (ReturnStmt [EIdent (NewIdent "_y")])
           Hsig eq_refl Hphis eq_refl).
Defined.

(** ** Further properties of the translation of values *)

(** X1: two integer constants are translated to the same literal exactly
    when they have the same value, whatever their widths are. *)
Theorem value_int_injective bits X bits' X' :
  value (VConst (CInt bits X)) = value (VConst (CInt bits' X')) ↔ X = X'.
Proof.
  cbn. split; [|by intros ->].
  intros [= H]. by apply (inj pretty) in H.
Qed.

(** ** Further properties of the statements of a block *)

(** X2: right after the resolution of the phi instructions, the statements
    of the block under a label are the statements of the instructions of the
    block of this label, followed by the assignments of the incoming values
    on the edges from this block, in declaration order, and by nothing else;
    [stmts] does not return where [insts] does not. *)
Theorem stmts_after_phis (insts : list Instruction → outcome (list Stmt)) f d d' E b :
  resolvePhis f d = (Ret tt, d') →
  blocks d' !! E = Some b →
  bb_Name (blk_BasicBlock b) = E ∧
  blk_BasicBlock b ∈ fn_Blocks f ∧
  stmts insts b =
    match insts (bb_Insts (blk_BasicBlock b)) with
    | Ret ss => Ret (ss ++ phiAssigns (fn_Blocks f) E)
    | Fail e => Fail e
    | Abort s => Abort s
    end.
Proof.
  intros Hphis Hb.
  destruct (resolvePhis_lookup _ _ _ _ _ Hphis Hb) as (block & Hin & Hname & ->).
  split; [done|]. split; [done|]. unfold stmts. cbn.
  by destruct (insts (bb_Insts block)).
Qed.

(** The statements of [target] in the function of the two phis: no
    instruction statement, no assignment, as no edge leaves from it to a
    phi; the statements of [A] are the two assignments. *)
Lemma stmts_after_phis_witness :
  ∃ d' b, resolvePhis swapFn newDecompiler = (Ret tt, d') ∧
    blocks d' !! "A" = Some b ∧
    stmts instsSpec b =
      Ret [ AssignStmt [EIdent (NewIdent "_d1")] ASSIGN [BasicLit INT "1"];
            AssignStmt [EIdent (NewIdent "_d2")] ASSIGN [EIdent (NewIdent "_d1")] ].
Proof.
  set (d' := (resolvePhis swapFn newDecompiler).2).
  assert (Hrun : resolvePhis swapFn newDecompiler = (Ret tt, d')) by by_running.
  destruct (blocks d' !! "A") as [b|] eqn:Hb; [|vm_compute in Hb; discriminate Hb].
  exists d', b. split; [exact Hrun|]. split; [exact Hb|].
  destruct (stmts_after_phis instsSpec swapFn newDecompiler d' "A" b Hrun Hb)
    as (_ & Hin & ->).
  apply elem_of_cons in Hin as [->|Hin]; [by_running|].
  apply elem_of_cons in Hin as [->|Hin]; [by_running|].
  apply list_elem_of_singleton in Hin as ->. by_running.
Defined.

(** ** The decompiler between two functions *)

Section isolation.

Variable goType : irType → outcome Expr.
Variable term : option Terminator → outcome Stmt.
Variable prim : decompiler → Primitive → outcome basicBlock.
Variable rangeNodes : list (string * string) → list (string * string).
Variable parsePrims : string → string → outcome (list Primitive).
Variable Fprint : FuncDecl → outcome unit.

(** What [funcDecl] does after the check for blocks, from the reset on. *)
Lemma funcDecl_from_reset f prims d ps rs :
  goType (fn_Sig f) = Ret (EFuncType ps rs) → fn_Blocks f ≠ [] →
  funcDecl goType term prim rangeNodes f prims d =
    funcDecl goType term prim rangeNodes f prims {| blocks := seed (fn_Blocks f) ∅ |}.
Proof.
  intros Hsig Hne. unfold funcDecl. unfold bind at 1 7, lift. rewrite Hsig.
  rewrite decide_False by (destruct (fn_Blocks f); [done|cbn; lia]).
  by rewrite !(bind_Ret _ _ _ _ _ (resetBlocks_seed _ _)).
Qed.

Lemma funcDecl_any_decompiler f prims d d' :
  (funcDecl goType term prim rangeNodes f prims d).1 =
  (funcDecl goType term prim rangeNodes f prims d').1.
Proof.
  destruct (goType (fn_Sig f)) as [typ| |] eqn:Hsig;
    [|unfold funcDecl, bind, lift; by rewrite Hsig..].
  destruct (decide (fn_Blocks f = [])) as [Hnil|Hne].
  - unfold funcDecl, bind, lift. rewrite Hsig, Hnil. by destruct typ.
  - destruct typ; try (unfold funcDecl, bind, lift; by rewrite Hsig).
    by rewrite (funcDecl_from_reset f prims d _ _ Hsig Hne),
               (funcDecl_from_reset f prims d' _ _ Hsig Hne).
Qed.

(** X3: what [funcDecl] returns for a function does not depend on the
    decompiler it is called on, that is, on the functions decompiled before;
    and when the function has blocks and its signature is translated to a
    function type, neither does the decompiler that [funcDecl] leaves. *)
Theorem funcDecl_forgets_decompiler f prims d d' :
  (funcDecl goType term prim rangeNodes f prims d).1 =
    (funcDecl goType term prim rangeNodes f prims d').1 ∧
  (∀ ps rs, goType (fn_Sig f) = Ret (EFuncType ps rs) → fn_Blocks f ≠ [] →
     funcDecl goType term prim rangeNodes f prims d =
     funcDecl goType term prim rangeNodes f prims d').
Proof.
  split; [apply funcDecl_any_decompiler|].
  intros ps rs Hsig Hne.
  by rewrite (funcDecl_from_reset f prims d _ _ Hsig Hne),
             (funcDecl_from_reset f prims d' _ _ Hsig Hne).
Qed.

(** An entry of the output comes from the function at its place. *)
Lemma ll2go_entry srcName funcs d i fn :
  (ll2go goType term prim rangeNodes parsePrims Fprint srcName funcs d).1 !! i = Some fn →
  ∃ f prims, funcs !! i = Some f ∧
    parsePrims srcName (fn_Name f) = Ret prims ∧
    (funcDecl goType term prim rangeNodes f prims newDecompiler).1 = Ret fn.
Proof.
  revert d i. induction funcs as [|f funcs IH]; intros d i; [by destruct i|].
  cbn [ll2go]. destruct (parsePrims srcName (fn_Name f)) as [prims| |] eqn:Hprims;
    [|by destruct i..].
  destruct (funcDecl goType term prim rangeNodes f prims d) as [[fn0| |] d1] eqn:Hfn;
    [|by destruct i..].
  assert (Hnew : (funcDecl goType term prim rangeNodes f prims newDecompiler).1 = Ret fn0)
    by by rewrite (funcDecl_any_decompiler f prims newDecompiler d), Hfn.
  destruct (Fprint fn0) as [[]| |].
  - destruct (ll2go goType term prim rangeNodes parsePrims Fprint srcName funcs d1)
      as [decls r] eqn:Hrest.
    destruct i as [|i]; intros Hi; simpl in Hi.
    + injection Hi as <-. by exists f, prims.
    + apply (IH d1 i). by rewrite Hrest.
  - destruct i as [|i]; intros Hi; simpl in Hi; [|by destruct i].
    injection Hi as <-. by exists f, prims.
  - destruct i as [|i]; intros Hi; simpl in Hi; [|by destruct i].
    injection Hi as <-. by exists f, prims.
Qed.

(** The declaration of a function is in the output, at the place of the
    function, as soon as the loop gets past the functions before it. *)
Lemma ll2go_reaches srcName funcs d i f prims fn :
  Forall (passes goType term prim rangeNodes parsePrims Fprint srcName) (take i funcs) →
  funcs !! i = Some f →
  parsePrims srcName (fn_Name f) = Ret prims →
  (funcDecl goType term prim rangeNodes f prims newDecompiler).1 = Ret fn →
  (ll2go goType term prim rangeNodes parsePrims Fprint srcName funcs d).1 !! i = Some fn.
Proof.
  revert d i. induction funcs as [|f0 funcs IH]; intros d i Hpass Hi Hprims Hfn;
    [by destruct i|].
  destruct i as [|i].
  - injection Hi as ->. cbn [ll2go]. rewrite Hprims.
    rewrite (funcDecl_any_decompiler f prims newDecompiler d) in Hfn.
    destruct (funcDecl goType term prim rangeNodes f prims d) as [o d1].
    cbn in Hfn. subst o. destruct (Fprint fn) as [[]| |]; [|done..].
    by destruct (ll2go goType term prim rangeNodes parsePrims Fprint srcName funcs d1).
  - cbn in Hpass, Hi. apply Forall_cons in Hpass as [(prims0 & fn0 & Hp0 & Hf0 & Hpr0) Hpass].
    cbn [ll2go]. rewrite Hp0.
    rewrite (funcDecl_any_decompiler f0 prims0 newDecompiler d) in Hf0.
    destruct (funcDecl goType term prim rangeNodes f0 prims0 d) as [o d1].
    cbn in Hf0. subst o. rewrite Hpr0.
    specialize (IH d1 i Hpass Hi Hprims Hfn).
    by destruct (ll2go goType term prim rangeNodes parsePrims Fprint srcName funcs d1).
Qed.

(** How the loop ends. *)
Lemma ll2go_outcome srcName funcs d :
  match failure (ll2go goType term prim rangeNodes parsePrims Fprint srcName funcs d).2.1 with
  | None =>
      length (ll2go goType term prim rangeNodes parsePrims Fprint srcName funcs d).1
        = length funcs ∧
      Forall (passes goType term prim rangeNodes parsePrims Fprint srcName) funcs
  | Some err =>
      ∃ n f, funcs !! n = Some f ∧
        Forall (passes goType term prim rangeNodes parsePrims Fprint srcName) (take n funcs) ∧
        ((length (ll2go goType term prim rangeNodes parsePrims Fprint srcName funcs d).1 = n ∧
          failure (parsePrims srcName (fn_Name f)) = Some err) ∨
         (length (ll2go goType term prim rangeNodes parsePrims Fprint srcName funcs d).1 = n ∧
          ∃ prims, parsePrims srcName (fn_Name f) = Ret prims ∧
            failure (funcDecl goType term prim rangeNodes f prims newDecompiler).1 = Some err) ∨
         (length (ll2go goType term prim rangeNodes parsePrims Fprint srcName funcs d).1 = S n ∧
          ∃ prims fn, parsePrims srcName (fn_Name f) = Ret prims ∧
            (funcDecl goType term prim rangeNodes f prims newDecompiler).1 = Ret fn ∧
            (ll2go goType term prim rangeNodes parsePrims Fprint srcName funcs d).1 !! n = Some fn ∧
            failure (Fprint fn) = Some err))
  end.
Proof.
  revert d. induction funcs as [|f funcs IH]; intros d; [by split|].
  cbn [ll2go]. destruct (parsePrims srcName (fn_Name f)) as [prims| |] eqn:Hprims.
  - assert (Hnew : (funcDecl goType term prim rangeNodes f prims newDecompiler).1 =
                   (funcDecl goType term prim rangeNodes f prims d).1)
      by apply funcDecl_any_decompiler.
    destruct (funcDecl goType term prim rangeNodes f prims d) as [[fn0| |] d1] eqn:Hfn;
      cbn [fst] in Hnew.
    + destruct (Fprint fn0) as [[]| |] eqn:Hprint.
      * assert (Hpass : passes goType term prim rangeNodes parsePrims Fprint srcName f)
          by by exists prims, fn0.
        specialize (IH d1).
        destruct (ll2go goType term prim rangeNodes parsePrims Fprint srcName funcs d1)
          as [decls [r d2]].
        cbn [fst snd length] in *. destruct (failure r) as [err|].
        -- destruct IH as (n & g & Hg & Hbefore & Hcase). exists (S n), g.
           split; [done|]. split; [by constructor|].
           destruct Hcase as [[<- ?]|[[<- ?]|[Hlen ?]]]; [by left|by right; left|].
           right. right. by rewrite Hlen.
        -- destruct IH as [-> Hall]. split; [done|by constructor].
      * cbn [fst snd failure length]. exists 0, f. split; [done|]. split; [constructor|].
        right. right. split; [done|]. exists prims, fn0. by rewrite Hprint.
      * cbn [fst snd failure length]. exists 0, f. split; [done|]. split; [constructor|].
        right. right. split; [done|]. exists prims, fn0. by rewrite Hprint.
    + cbn [fst snd failure length]. exists 0, f. split; [done|]. split; [constructor|].
      right. left. split; [done|]. exists prims. by rewrite Hnew.
    + cbn [fst snd failure length]. exists 0, f. split; [done|]. split; [constructor|].
      right. left. split; [done|]. exists prims. by rewrite Hnew.
  - cbn [fst snd failure length]. exists 0, f. split; [done|]. split; [constructor|].
    left. by rewrite Hprims.
  - cbn [fst snd failure length]. exists 0, f. split; [done|]. split; [constructor|].
    left. by rewrite Hprims.
Qed.

(** X4: the declaration at a place of the output of [ll2go] is the one that
    [funcDecl] returns on a new decompiler for the function at this place
    and the primitives read for it: the functions of a module are decompiled
    independently of each other. *)
Theorem ll2go_isolated srcName funcs d i fn :
  (ll2go goType term prim rangeNodes parsePrims Fprint srcName funcs d).1 !! i = Some fn →
  ∃ f prims, funcs !! i = Some f ∧
    parsePrims srcName (fn_Name f) = Ret prims ∧
    (funcDecl goType term prim rangeNodes f prims newDecompiler).1 = Ret fn.
Proof. apply ll2go_entry. Qed.

(** X5: [ll2go] stops at the first function that it does not get past: it
    returns the error or the panic of the step that fails, which is the
    reading of the primitives, [funcDecl] or the printing of the
    declaration; the loop has got past all functions before this one.  The
    declarations appended are those of the functions before it and, when it
    is the printing that fails, the declaration of the function itself, which
    is appended before it is printed.  When [ll2go] returns without error, it
    has got past every function and there is one declaration per function. *)
Theorem ll2go_stops_at_first_failure srcName funcs d :
  match failure (ll2go goType term prim rangeNodes parsePrims Fprint srcName funcs d).2.1 with
  | None =>
      length (ll2go goType term prim rangeNodes parsePrims Fprint srcName funcs d).1
        = length funcs ∧
      Forall (passes goType term prim rangeNodes parsePrims Fprint srcName) funcs
  | Some err =>
      ∃ n f, funcs !! n = Some f ∧
        Forall (passes goType term prim rangeNodes parsePrims Fprint srcName) (take n funcs) ∧
        ((length (ll2go goType term prim rangeNodes parsePrims Fprint srcName funcs d).1 = n ∧
          failure (parsePrims srcName (fn_Name f)) = Some err) ∨
         (length (ll2go goType term prim rangeNodes parsePrims Fprint srcName funcs d).1 = n ∧
          ∃ prims, parsePrims srcName (fn_Name f) = Ret prims ∧
            failure (funcDecl goType term prim rangeNodes f prims newDecompiler).1 = Some err) ∨
         (length (ll2go goType term prim rangeNodes parsePrims Fprint srcName funcs d).1 = S n ∧
          ∃ prims fn, parsePrims srcName (fn_Name f) = Ret prims ∧
            (funcDecl goType term prim rangeNodes f prims newDecompiler).1 = Ret fn ∧
            (ll2go goType term prim rangeNodes parsePrims Fprint srcName funcs d).1 !! n = Some fn ∧
            failure (Fprint fn) = Some err))
  end.
Proof. apply ll2go_outcome. Qed.

(** C8: a function without blocks yields the declaration of its name and
    signature, without body, whatever the primitives and the decompiler are,
    and [funcDecl] leaves the decompiler as it was: no block is seeded, no
    phi resolved and no primitive merged.  This declaration passes through to
    the output of [ll2go] in input order: it is the entry at the place of the
    function as soon as the loop gets past the functions before it and reads
    the primitives of the function, and so whenever [ll2go] returns without
    error; an entry at the place of the function is never anything else, and
    the entry at any place carries the name of the function at this place. *)
Theorem bodyless_passes_through srcName funcs d i f :
  funcs !! i = Some f → fn_Blocks f = [] →
  (∀ ps rs prims d0, goType (fn_Sig f) = Ret (EFuncType ps rs) →
     funcDecl goType term prim rangeNodes f prims d0 = (Ret (declOf f ps rs None), d0)) ∧
  (∀ ps rs prims, goType (fn_Sig f) = Ret (EFuncType ps rs) →
     parsePrims srcName (fn_Name f) = Ret prims →
     Forall (passes goType term prim rangeNodes parsePrims Fprint srcName) (take i funcs) →
     (ll2go goType term prim rangeNodes parsePrims Fprint srcName funcs d).1 !! i =
       Some (declOf f ps rs None)) ∧
  (failure (ll2go goType term prim rangeNodes parsePrims Fprint srcName funcs d).2.1 = None →
     length (ll2go goType term prim rangeNodes parsePrims Fprint srcName funcs d).1
       = length funcs ∧
     ∃ ps rs, goType (fn_Sig f) = Ret (EFuncType ps rs) ∧
       (ll2go goType term prim rangeNodes parsePrims Fprint srcName funcs d).1 !! i =
         Some (declOf f ps rs None)) ∧
  (∀ fn, (ll2go goType term prim rangeNodes parsePrims Fprint srcName funcs d).1 !! i = Some fn →
     ∃ ps rs, goType (fn_Sig f) = Ret (EFuncType ps rs) ∧ fn = declOf f ps rs None) ∧
  (∀ j g fn, funcs !! j = Some g →
     (ll2go goType term prim rangeNodes parsePrims Fprint srcName funcs d).1 !! j = Some fn →
     fd_Name fn = global (fn_Name g)).
Proof.
  intros Hi Hnil.
  assert (Hentry : ∀ fn,
    (ll2go goType term prim rangeNodes parsePrims Fprint srcName funcs d).1 !! i = Some fn →
    ∃ ps rs, goType (fn_Sig f) = Ret (EFuncType ps rs) ∧ fn = declOf f ps rs None).
  { intros fn (g & prims & Hg & _ & Hfn)%ll2go_entry.
    rewrite Hi in Hg. injection Hg as <-.
    destruct (funcDecl goType term prim rangeNodes f prims newDecompiler) as [o d1] eqn:Hrun.
    cbn in Hfn. subst o.
    destruct (funcDecl_Ret_sig _ _ _ _ _ _ _ _ _ Hrun) as (ps & rs & Hsig).
    exists ps, rs. split; [done|].
    rewrite (funcDecl_bodyless _ _ _ _ _ _ _ _ _ Hsig Hnil) in Hrun. by injection Hrun as <- _. }
  split; [|split; [|split; [|split]]].
  - intros ps rs prims d0 Hsig. by apply funcDecl_bodyless.
  - intros ps rs prims Hsig Hprims Hpass.
    apply (ll2go_reaches srcName funcs d i f prims); [done..|].
    by rewrite (funcDecl_bodyless _ _ _ _ _ _ _ _ _ Hsig Hnil).
  - intros Hok. pose proof (ll2go_outcome srcName funcs d) as Hout. rewrite Hok in Hout.
    destruct Hout as [Hlen _]. split; [done|].
    destruct (lookup_lt_is_Some_2
                (ll2go goType term prim rangeNodes parsePrims Fprint srcName funcs d).1 i)
      as [fn Hfn].
    { rewrite Hlen. by apply lookup_lt_Some in Hi. }
    destruct (Hentry fn Hfn) as (ps & rs & Hsig & ->). by exists ps, rs.
  - exact Hentry.
  - intros j g fn Hj (g' & prims & Hg & _ & Hfn)%ll2go_entry.
    rewrite Hj in Hg. injection Hg as <-.
    destruct (funcDecl goType term prim rangeNodes g prims newDecompiler) as [o d1] eqn:Hrun.
    cbn in Hfn. subst o. by apply (funcDecl_Ret_name _ _ _ _ _ _ _ _ _ Hrun).
Qed.

End isolation.

(** A declaration, a definition, and a function of two blocks for which
    there is no primitive: the first two are printed, the error is the one of
    the third. *)
Lemma ll2go_isolated_witness :
  ∃ fn, (ll2go goTypeSpec termSpec (primSpec instsSpec synthSpec) (λ l, l) noPrims printOK "m"
           [putsFn; incFn; twoFn "a" "b"] newDecompiler).1 !! 1 = Some fn ∧
    (decompile (λ l, l) incFn [] newDecompiler).1 = Ret fn.
Proof.
  destruct ((ll2go goTypeSpec termSpec (primSpec instsSpec synthSpec) (λ l, l) noPrims printOK "m"
               [putsFn; incFn; twoFn "a" "b"] newDecompiler).1 !! 1) as [fn|] eqn:Hfn;
    [|vm_compute in Hfn; discriminate Hfn].
  exists fn. split; [reflexivity|].
  destruct (ll2go_isolated goTypeSpec termSpec (primSpec instsSpec synthSpec) (λ l, l) noPrims
              printOK "m" [putsFn; incFn; twoFn "a" "b"] newDecompiler 1 fn Hfn)
    as (f & prims & Hf & Hprims & Hdecl).
  injection Hf as <-. injection Hprims as <-. exact Hdecl.
Defined.

(** A declaration between two definitions, the second of which is not
    decompiled: the declaration is the second entry of the output. *)
Lemma bodyless_passes_through_witness :
  (ll2go goTypeSpec termSpec (primSpec instsSpec synthSpec) (λ l, l) noPrims printOK "m"
     [incFn; putsFn; twoFn "a" "b"] newDecompiler).1 !! 1 =
    Some {| fd_Name := NewIdent "puts";
            fd_Type := {| Params := [StarExpr (EIdent (NewIdent "int8"))];
                          Results := [EIdent (NewIdent "int32")] |};
            fd_Body := None |} ∧
  funcDecl goTypeSpec termSpec (primSpec instsSpec synthSpec) (λ l, l) putsFn
    [sequenceOf "X" "a" "b"] newDecompiler =
    (Ret {| fd_Name := NewIdent "puts";
            fd_Type := {| Params := [StarExpr (EIdent (NewIdent "int8"))];
                          Results := [EIdent (NewIdent "int32")] |};
            fd_Body := None |}, newDecompiler).
Proof.
  destruct (bodyless_passes_through goTypeSpec termSpec (primSpec instsSpec synthSpec)
              (λ l, l) noPrims printOK "m" [incFn; putsFn; twoFn "a" "b"] newDecompiler
              1 putsFn eq_refl eq_refl)
    as (Hdecl & Hout & _).
  split.
  - apply (Hout [StarExpr (EIdent (NewIdent "int8"))] [EIdent (NewIdent "int32")] []).
    + by_running.
    + reflexivity.
    + apply Forall_cons. split; [|constructor].
      eexists [], _. split; [reflexivity|]. split; [by_running|reflexivity].
  - apply (Hdecl [StarExpr (EIdent (NewIdent "int8"))] [EIdent (NewIdent "int32")]).
    by_running.
Defined.

(** ** Further properties of the loop over the primitives *)

Lemma forEach_app {A} (body : A → M unit) l1 l2 d :
  forEach body (l1 ++ l2) d = bind (forEach body l1) (λ _, forEach body l2) d.
Proof.
  revert d. induction l1 as [|x l1 IH]; intros d; [done|].
  cbn. unfold bind. destruct (body x d) as [[[]| |] d1]; [|done..].
  by rewrite IH.
Qed.

Lemma bind_Abort {A B} (m : M A) (k : A → M B) d s d1 :
  m d = (Abort s, d1) → bind m k d = (Abort s, d1).
Proof. unfold bind. by intros ->. Qed.

Lemma singleBlock_inv d k b d' :
  singleBlock d = (Ret (k, b), d') → d' = d ∧ blocks d = {[ k := b ]}.
Proof.
  unfold singleBlock, bind, get, lift. case_decide as Hsize; [done|].
  destruct (map_to_list (blocks d)) as [|kb l] eqn:Hl; [done|].
  intros [= -> <-]. split; [done|].
  assert (l = []) as ->.
  { rewrite <- length_map_to_list, Hl in Hsize.
    destruct l; [done|cbn in Hsize; lia]. }
  rewrite <- (list_to_map_to_list (blocks d)), Hl. cbn. by rewrite insert_empty.
Qed.

Lemma singleBlock_Fail_inv d e d' :
  singleBlock d = (Fail e, d') →
  d' = d ∧ size (blocks d) ≠ 1 ∧ e = reductionError (size (blocks d)).
Proof.
  unfold singleBlock, bind, get, lift. case_decide as Hsize.
  - by intros [= <- <-].
  - by destruct (map_to_list (blocks d)).
Qed.

Lemma resolvePhis_no_Fail f d e d' : resolvePhis f d ≠ (Fail e, d').
Proof.
  unfold resolvePhis. rewrite (bind_Ret _ _ _ _ _ (resetBlocks_seed _ _)).
  apply recordPhis_no_Fail.
Qed.

Section loop.

Variable goType : irType → outcome Expr.
Variable term : option Terminator → outcome Stmt.
Variable prim : decompiler → Primitive → outcome basicBlock.
Variable rangeNodes : list (string * string) → list (string * string).

Lemma recoverPrims_app pre post d :
  recoverPrims prim rangeNodes (pre ++ post) d =
    bind (recoverPrims prim rangeNodes pre) (λ _, recoverPrims prim rangeNodes post) d.
Proof. apply forEach_app. Qed.

Lemma recoverPrims_Fail_inv prims d e d' :
  recoverPrims prim rangeNodes prims d = (Fail e, d') →
  ∃ p, p ∈ prims ∧ prim d' p = Fail e.
Proof.
  revert d. induction prims as [|p prims IH]; intros d; [done|].
  rewrite recoverPrims_cons. destruct (prim d p) as [b|e0|] eqn:Hp; [| |done].
  - intros (q & Hq & Hfail)%IH. exists q. split; [by right|done].
  - intros [= <- <-]. exists p. split; [left|done].
Qed.

Lemma reduce_inv f prims d k b d2 :
  reduce prim rangeNodes f prims d = (Ret (k, b), d2) → blocks d2 = {[ k := b ]}.
Proof.
  unfold reduce. intros ([] & d0 & _ & H)%bind_Ret_inv.
  apply bind_Ret_inv in H as ([] & d1 & _ & H).
  by apply singleBlock_inv in H as [-> ?].
Qed.

(** X6: when [prim] returns an error for a primitive, after the primitives
    before it have been merged, [funcDecl] returns this very error and no
    declaration; the block map is the one these primitives have left, and
    the primitives that follow are not looked at. *)
Theorem prim_error_returned f pre p post d d1 d2 e ps rs :
  goType (fn_Sig f) = Ret (EFuncType ps rs) →
  fn_Blocks f ≠ [] →
  resolvePhis f d = (Ret tt, d1) →
  recoverPrims prim rangeNodes pre d1 = (Ret tt, d2) →
  prim d2 p = Fail e →
  funcDecl goType term prim rangeNodes f (pre ++ p :: post) d = (Fail e, d2).
Proof.
  intros Hsig Hne Hphis Hpre Hfail.
  rewrite (funcDecl_reduce _ _ _ _ _ _ _ ps rs Hsig Hne). unfold reduce.
  unfold bind at 1. rewrite (bind_Ret _ _ _ _ _ Hphis).
  unfold bind at 1. rewrite recoverPrims_app, (bind_Ret _ _ _ _ _ Hpre).
  by rewrite recoverPrims_cons, Hfail.
Qed.

(** X7: a primitive that [prim] merges into a block puts this block under
    its label, also when the label is the one of a member, as the members
    are deleted before the block is inserted; it removes the other members
    and leaves the blocks under all other labels as they are. *)
Theorem primitive_replaces_members p d b :
  range_order rangeNodes →
  prim d p = Ret b →
  ∃ d', recoverPrims prim rangeNodes [p] d = (Ret tt, d') ∧
    blocks d' !! bb_Name (blk_BasicBlock b) = Some b ∧
    ∀ E, E ≠ bb_Name (blk_BasicBlock b) →
      blocks d' !! E = if decide (E ∈ members p) then None else blocks d !! E.
Proof.
  intros Hrange Hprim. eexists. rewrite recoverPrims_cons, Hprim, recoverPrims_nil.
  split; [done|]. cbn. unfold merged. split; [apply lookup_insert_eq|].
  intros E HE. rewrite lookup_insert_ne by done. rewrite deleteAll_lookup.
  destruct (decide (E ∈ members p)) as [Hin|Hin].
  - by rewrite decide_True by by apply (range_members rangeNodes p Hrange).
  - by rewrite decide_False by by rewrite (range_members rangeNodes p Hrange).
Qed.

(** X8: a primitive that is merged, whose members are pairwise distinct
    labels of the block map and whose block comes under a new label or under
    the label of a member, takes as many blocks from the map as it has
    members and adds one. *)
Theorem primitive_shrinks_map p d d' b :
  range_order rangeNodes →
  prim d p = Ret b →
  NoDup (members p) →
  (∀ E, E ∈ members p → E ∈ dom (blocks d)) →
  (bb_Name (blk_BasicBlock b) ∈ dom (blocks d) → bb_Name (blk_BasicBlock b) ∈ members p) →
  recoverPrims prim rangeNodes [p] d = (Ret tt, d') →
  size (blocks d') + length (members p) = size (blocks d) + 1.
Proof.
  intros Hrange Hprim Hdup Hin Hnew. rewrite recoverPrims_cons, Hprim, recoverPrims_nil.
  intros [= <-]. cbn. rewrite <- !size_dom. unfold merged.
  rewrite dom_insert_L, deleteAll_dom.
  assert (Hset : (list_to_set (rangeNodes (Nodes p)).*2 : gset string) = list_to_set (members p)).
  { apply set_eq. intros E. rewrite !elem_of_list_to_set. by apply range_members. }
  rewrite Hset, size_union, size_singleton by set_solver.
  rewrite size_difference by set_solver.
  assert (Hle : (size (list_to_set (members p) : gset string) ≤ size (dom (blocks d)))%nat).
  { apply subseteq_size. set_solver. }
  rewrite size_list_to_set in * by done. lia.
Qed.

(** X9: a declaration that [funcDecl] returns has the name of the function
    and the translation of its signature.  It has no body when the function
    has no blocks, and the decompiler is then the one [funcDecl] was called
    on; otherwise its body is made of the statements of the one block that
    is left and of the statement of the terminator of this block, and the
    decompiler holds this block and no other, with the body for its
    statements. *)
Theorem funcDecl_returns f prims d fn d' :
  funcDecl goType term prim rangeNodes f prims d = (Ret fn, d') →
  ∃ ps rs, goType (fn_Sig f) = Ret (EFuncType ps rs) ∧
    ((fn_Blocks f = [] ∧ fn = declOf f ps rs None ∧ d' = d) ∨
     (fn_Blocks f ≠ [] ∧
      ∃ k b t d2,
        reduce prim rangeNodes f prims d = (Ret (k, b), d2) ∧
        blocks d2 = {[ k := b ]} ∧
        term (bb_Term (blk_BasicBlock b)) = Ret t ∧
        fn = declOf f ps rs (Some (blk_stmts b ++ [t])) ∧
        blocks d' = {[ k := withStmts (blk_stmts b ++ [t]) b ]})).
Proof.
  intros H. destruct (funcDecl_Ret_sig _ _ _ _ _ _ _ _ _ H) as (ps & rs & Hsig).
  exists ps, rs. split; [done|].
  destruct (decide (fn_Blocks f = [])) as [Hnil|Hne].
  - left. rewrite (funcDecl_bodyless _ _ _ _ _ _ _ _ _ Hsig Hnil) in H.
    by injection H as <- <-.
  - right. split; [done|].
    rewrite (funcDecl_reduce _ _ _ _ _ _ _ ps rs Hsig Hne) in H.
    apply bind_Ret_inv in H as ([k b] & d2 & Hred & H).
    pose proof (reduce_inv _ _ _ _ _ _ Hred) as Hd2.
    apply bind_Ret_inv in H as (body & d3 & Hbody & H). injection H as <- <-.
    unfold recoverBody, bind, lift, get, put, ret in Hbody. cbn in Hbody.
    destruct (term (bb_Term (blk_BasicBlock b))) as [t| |] eqn:Ht; [|done..].
    injection Hbody as <- <-. exists k, b, t, d2. repeat split; [done..|].
    cbn. rewrite Hd2. apply insert_singleton_eq.
Qed.

(** X10: a function of several blocks with pairwise distinct labels whose
    phi instructions are resolved is not decompiled without primitives:
    [funcDecl] returns the error that reports the number of its blocks. *)
Theorem blocks_without_primitives f d d1 ps rs :
  goType (fn_Sig f) = Ret (EFuncType ps rs) →
  NoDup (bb_Name <$> fn_Blocks f) →
  1 < length (fn_Blocks f) →
  resolvePhis f d = (Ret tt, d1) →
  funcDecl goType term prim rangeNodes f [] d =
    (Fail (reductionError (length (fn_Blocks f))), d1).
Proof.
  intros Hsig Hdup Hlen Hphis.
  assert (Hne : fn_Blocks f ≠ []) by (destruct (fn_Blocks f); [cbn in Hlen; lia|done]).
  assert (Hsize : size (blocks d1) = length (fn_Blocks f)).
  { by rewrite <- size_dom, (resolvePhis_dom _ _ _ Hphis), size_list_to_set, length_fmap. }
  rewrite (funcDecl_reduce _ _ _ _ _ _ _ ps rs Hsig Hne). unfold reduce.
  unfold bind at 1. rewrite (bind_Ret _ _ _ _ _ Hphis).
  unfold bind at 1. rewrite recoverPrims_nil.
  rewrite singleBlock_incomplete by (rewrite Hsize; lia). by rewrite Hsize.
Qed.

(** X11: the translations of types and of terminators have no error to
    return, so an error that [funcDecl] returns is either an error that
    [prim] returns for one of the primitives, on the block map [funcDecl]
    leaves, or the error of the check for a single block, with the number of
    blocks of the block map [funcDecl] leaves. *)
Theorem funcDecl_errors f prims d e d' :
  (∀ t e, goType t ≠ Fail e) →
  (∀ t e, term t ≠ Fail e) →
  funcDecl goType term prim rangeNodes f prims d = (Fail e, d') →
  (∃ p, p ∈ prims ∧ prim d' p = Fail e) ∨
  (size (blocks d') ≠ 1 ∧ e = reductionError (size (blocks d'))).
Proof.
  intros HgoType Hterm H.
  destruct (goType (fn_Sig f)) as [typ|e0|] eqn:Hsig;
    [|by destruct (HgoType _ _ Hsig)|unfold funcDecl, bind, lift in H; by rewrite Hsig in H].
  destruct (decide (fn_Blocks f = [])) as [Hnil|Hne].
  { unfold funcDecl, bind, lift in H. rewrite Hsig, Hnil in H. by destruct typ. }
  destruct typ; try (unfold funcDecl, bind, lift in H; by rewrite Hsig in H).
  rewrite (funcDecl_reduce _ _ _ _ _ _ _ _ _ Hsig Hne) in H. unfold bind at 1 in H.
  destruct (reduce prim rangeNodes f prims d) as [[[k b]|e0|] d2] eqn:Hred; [| |done].
  - unfold recoverBody, bind, lift, get, put, ret in H. cbn in H.
    destruct (term (bb_Term (blk_BasicBlock b))) as [t|e0|] eqn:Ht; [done| |done].
    by destruct (Hterm _ _ Ht).
  - injection H as -> ->. unfold reduce in Hred. unfold bind at 1 in Hred.
    destruct (resolvePhis f d) as [[[]|e0|] d1] eqn:Hphis;
      [|by destruct (resolvePhis_no_Fail _ _ _ _ Hphis)|done].
    unfold bind at 1 in Hred.
    destruct (recoverPrims prim rangeNodes prims d1) as [[[]|e0|] d3] eqn:Hprims; [| |done].
    + right. by apply singleBlock_Fail_inv in Hred as (-> & ? & ?).
    + left. injection Hred as -> ->. by apply recoverPrims_Fail_inv in Hprims.
Qed.

(** X12: a function with blocks one of whose phi instructions has an
    incoming label that names no block of the function, or an incoming value
    that [value] does not translate, makes [funcDecl] panic: it returns
    neither a declaration nor an error. *)
Theorem unresolved_phi_panics f prims d ps rs :
  goType (fn_Sig f) = Ret (EFuncType ps rs) →
  fn_Blocks f ≠ [] →
  ¬ Forall (incResolves (fn_Blocks f)) (phiIncs (fn_Blocks f)) →
  ∃ msg d', funcDecl goType term prim rangeNodes f prims d = (Abort msg, d').
Proof.
  intros Hsig Hne Hbad.
  destruct (resolvePhis f d) as [[[]|e|msg] d1] eqn:Hphis.
  - destruct Hbad. apply (recordPhis_Ret_iff (fn_Blocks f) (fn_Blocks f)
                            {| blocks := seed (fn_Blocks f) ∅ |}).
    + unfold labelled. cbn. rewrite seed_dom. set_solver.
    + exists d1. by apply resolvePhis_inv in Hphis.
  - by destruct (resolvePhis_no_Fail _ _ _ _ Hphis).
  - exists msg, d1. rewrite (funcDecl_reduce _ _ _ _ _ _ _ ps rs Hsig Hne).
    apply bind_Abort. unfold reduce. by apply bind_Abort.
Qed.

End loop.

(** The second primitive names [a], which the first has consumed. *)
Lemma prim_error_returned_witness :
  ∃ d2, decompile (λ l, l) (twoFn "a" "b")
          ([sequenceOf "X" "a" "b"] ++ sequenceOf "Y" "X" "a" :: [sequenceOf "Z" "Y" "X"])
          newDecompiler = (Fail (unresolved "a"), d2) ∧
        dom (blocks d2) = {[ "X" ]}.
Proof.
  set (d1 := (resolvePhis (twoFn "a" "b") newDecompiler).2).
  set (d2 := (recoverPrims (primSpec instsSpec synthSpec) (λ l, l) [sequenceOf "X" "a" "b"] d1).2).
  exists d2. split.
  - apply (prim_error_returned goTypeSpec termSpec (primSpec instsSpec synthSpec) (λ l, l)
             (twoFn "a" "b") [sequenceOf "X" "a" "b"] (sequenceOf "Y" "X" "a")
             [sequenceOf "Z" "Y" "X"] newDecompiler d1 d2 (unresolved "a") [] []).
    + by_running.
    + discriminate.
    + by_running.
    + by_running.
    + by_running.
  - assert (Hd2 : ∃ x, blocks d2 = <["X" := x]> ∅) by (vm_compute; eauto).
    destruct Hd2 as [x ->]. rewrite dom_insert_L. set_solver.
Defined.

(** A sequence that is merged under the label of its entry. *)
Lemma primitive_replaces_members_witness :
  ∃ d1 b d',
    primSpec instsSpec synthSpec d1 (sequenceOf "a" "a" "b") = Ret b ∧
    recoverPrims (primSpec instsSpec synthSpec) (λ l, l) [sequenceOf "a" "a" "b"] d1 = (Ret tt, d') ∧
    blocks d' !! "a" = Some b ∧
    blocks d' !! "b" = None.
Proof.
  set (d1 := (resolvePhis (twoFn "a" "b") newDecompiler).2).
  destruct (primSpec instsSpec synthSpec d1 (sequenceOf "a" "a" "b")) as [b| |] eqn:Hb;
    [|vm_compute in Hb; discriminate Hb..].
  assert (Hname : bb_Name (blk_BasicBlock b) = "a") by by apply primSpec_name in Hb.
  destruct (primitive_replaces_members (primSpec instsSpec synthSpec) (λ l, l)
              (sequenceOf "a" "a" "b") d1 b range_order_id Hb) as (d' & Hrun & Hnode & Hother).
  exists d1, b, d'. split; [exact Hb|]. split; [exact Hrun|]. rewrite Hname in *.
  split; [exact Hnode|]. rewrite (Hother "b") by discriminate.
  apply decide_True. right. left.
Defined.

(** Two members go, one block comes. *)
Lemma primitive_shrinks_map_witness :
  ∃ d1 d', recoverPrims (primSpec instsSpec synthSpec) (λ l, l) [sequenceOf "X" "a" "b"] d1 =
             (Ret tt, d') ∧
    size (blocks d1) = 2 ∧ size (blocks d') + 2 = 2 + 1.
Proof.
  set (d1 := (resolvePhis (twoFn "a" "b") newDecompiler).2).
  set (d' := (recoverPrims (primSpec instsSpec synthSpec) (λ l, l) [sequenceOf "X" "a" "b"] d1).2).
  assert (Hrun : recoverPrims (primSpec instsSpec synthSpec) (λ l, l) [sequenceOf "X" "a" "b"] d1 =
                 (Ret tt, d')) by by_running.
  assert (Hsize : size (blocks d1) = 2) by by_running.
  assert (Hdom : dom (blocks d1) = list_to_set ["a"; "b"]).
  { apply (resolvePhis_dom (twoFn "a" "b") newDecompiler). by_running. }
  destruct (primSpec instsSpec synthSpec d1 (sequenceOf "X" "a" "b")) as [b| |] eqn:Hb;
    [|vm_compute in Hb; discriminate Hb..].
  assert (Hname : bb_Name (blk_BasicBlock b) = "X") by by apply primSpec_name in Hb.
  exists d1, d'. split; [exact Hrun|]. split; [exact Hsize|].
  rewrite <- Hsize at 2.
  apply (primitive_shrinks_map (primSpec instsSpec synthSpec) (λ l, l)
           (sequenceOf "X" "a" "b") d1 d' b range_order_id Hb).
  - cbn. apply NoDup_cons. split; [|apply NoDup_singleton].
    intros Hin. apply list_elem_of_singleton in Hin. discriminate Hin.
  - intros E HE. rewrite Hdom. by apply elem_of_list_to_set.
  - rewrite Hname, Hdom. intros HX. apply elem_of_list_to_set in HX.
    apply elem_of_cons in HX as [HX|HX]; [discriminate HX|].
    apply list_elem_of_singleton in HX. discriminate HX.
  - exact Hrun.
Defined.

(** The declaration of [inc] and the decompiler after it. *)
Lemma funcDecl_returns_witness :
  ∃ fn d', decompile (λ l, l) incFn [] newDecompiler = (Ret fn, d') ∧
    fd_Body fn = Some [ReturnStmt [EIdent (NewIdent "_y")]] ∧
    size (blocks d') = 1.
Proof.
  destruct (decompile (λ l, l) incFn [] newDecompiler) as [[fn| |] d'] eqn:Hrun;
    [|vm_compute in Hrun; discriminate Hrun..].
  exists fn, d'. split; [reflexivity|].
  destruct (funcDecl_returns goTypeSpec termSpec (primSpec instsSpec synthSpec) (λ l, l)
              incFn [] newDecompiler fn d' Hrun)
    as (ps & rs & Hsig & [(Hnil & _)|(_ & k & b & t & d2 & Hred & _ & Ht & -> & Hd')]);
    [discriminate Hnil|].
  rewrite Hd', map_size_singleton. split; [|reflexivity].
  vm_compute in Hred. injection Hred as <- <- _.
  vm_compute in Ht. by injection Ht as <-.
Defined.

(** Two blocks, no primitive. *)
Lemma blocks_without_primitives_witness :
  ∃ d1, decompile (λ l, l) (twoFn "a" "b") [] newDecompiler = (Fail (reductionError 2), d1).
Proof.
  exists (resolvePhis (twoFn "a" "b") newDecompiler).2.
  apply (blocks_without_primitives goTypeSpec termSpec (primSpec instsSpec synthSpec) (λ l, l)
           (twoFn "a" "b") newDecompiler _ [] []).
  - by_running.
  - cbn. apply NoDup_cons. split; [|apply NoDup_singleton].
    intros Hin. apply list_elem_of_singleton in Hin. discriminate Hin.
  - cbn. lia.
  - by_running.
Defined.

(** The error for two blocks and no primitive is the one of the check. *)
Lemma funcDecl_errors_witness :
  ∃ e d',
    funcDecl (λ _, Ret (EFuncType [] [])) (λ _, Ret (ReturnStmt []))
      (primSpec instsSpec synthSpec) (λ l, l) (twoFn "a" "b") [] newDecompiler = (Fail e, d') ∧
    e = reductionError 2.
Proof.
  destruct (funcDecl (λ _, Ret (EFuncType [] [])) (λ _, Ret (ReturnStmt []))
              (primSpec instsSpec synthSpec) (λ l, l) (twoFn "a" "b") [] newDecompiler)
    as [[|e|] d'] eqn:Hrun; [vm_compute in Hrun; discriminate Hrun| |vm_compute in Hrun; discriminate Hrun].
  exists e, d'. split; [reflexivity|].
  destruct (funcDecl_errors (λ _, Ret (EFuncType [] [])) (λ _, Ret (ReturnStmt []))
              (primSpec instsSpec synthSpec) (λ l, l) (twoFn "a" "b") [] newDecompiler e d')
    as [(p & Hp & _)|[_ ->]].
  - discriminate.
  - discriminate.
  - exact Hrun.
  - by apply elem_of_nil in Hp.
  - vm_compute in Hrun. injection Hrun as _ <-. by_running.
Defined.

(** The label [Z] names no block. *)
Lemma unresolved_phi_panics_witness :
  ∃ msg d', decompile (λ l, l) danglingPhiFn [] newDecompiler = (Abort msg, d').
Proof.
  apply (unresolved_phi_panics goTypeSpec termSpec (primSpec instsSpec synthSpec) (λ l, l)
           danglingPhiFn [] newDecompiler [] []).
  - by_running.
  - discriminate.
  - intros H. apply Forall_cons in H as [[_ Hin] _]. cbn in Hin.
    apply list_elem_of_singleton in Hin. discriminate Hin.
Defined.

(** X13: when [prim] labels the block it returns by the primitive, the labels
    of the block map after the primitives are got from the labels of the
    blocks of the function by taking away, primitive after primitive, the
    members of the primitive and adding its label. *)
Theorem labels_after_primitives prim rangeNodes f prims d d1 d2 :
  range_order rangeNodes →
  (∀ d p b, prim d p = Ret b → bb_Name (blk_BasicBlock b) = Node p) →
  resolvePhis f d = (Ret tt, d1) →
  recoverPrims prim rangeNodes prims d1 = (Ret tt, d2) →
  dom (blocks d2) = foldl consume (list_to_set (bb_Name <$> fn_Blocks f)) prims.
Proof.
  intros Hrange Hnode Hphis Hprims.
  by rewrite (recoverPrims_dom prim rangeNodes Hrange Hnode _ _ _ Hprims),
             (resolvePhis_dom _ _ _ Hphis).
Qed.

(** Four blocks, merged two by two and then into one. *)
Lemma labels_after_primitives_witness :
  ∃ d1 d2,
    resolvePhis fourFn newDecompiler = (Ret tt, d1) ∧
    recoverPrims (primSpec instsSpec synthSpec) (λ l, l)
      [sequenceOf "X" "A" "B"; sequenceOf "Y" "C" "D"; sequenceOf "Z" "X" "Y"] d1 = (Ret tt, d2) ∧
    dom (blocks d2) = {[ "Z" ]}.
Proof.
  set (d1 := (resolvePhis fourFn newDecompiler).2).
  set (d2 := (recoverPrims (primSpec instsSpec synthSpec) (λ l, l)
                [sequenceOf "X" "A" "B"; sequenceOf "Y" "C" "D"; sequenceOf "Z" "X" "Y"] d1).2).
  assert (Hphis : resolvePhis fourFn newDecompiler = (Ret tt, d1)) by by_running.
  assert (Hprims : recoverPrims (primSpec instsSpec synthSpec) (λ l, l)
                     [sequenceOf "X" "A" "B"; sequenceOf "Y" "C" "D"; sequenceOf "Z" "X" "Y"] d1 =
                   (Ret tt, d2)) by by_running.
  exists d1, d2. split; [exact Hphis|]. split; [exact Hprims|].
  rewrite (labels_after_primitives (primSpec instsSpec synthSpec) (λ l, l) fourFn
             [sequenceOf "X" "A" "B"; sequenceOf "Y" "C" "D"; sequenceOf "Z" "X" "Y"]
             newDecompiler d1 d2 range_order_id (primSpec_name instsSpec synthSpec) Hphis Hprims).
  cbn. unfold consume, members. cbn. apply set_eq. intros E. set_unfold. naive_solver.
Defined.

End Decompiler.
